(** * Pack calculator: DP solver, validation and cache wrapper

    Shallow embedding of
    - [internal/domain/entities.go]  (ValidatePackSizes, ValidateAmount,
      ValidateSolverInput, NewSolution),
    - [internal/usecase/solver.go]   (DPSolver.Solve, normalizeSizes,
      calculateMaxSum, reconstructSolution),
    - [internal/infra/redis/cache.go] (CachedSolver.Solve,
      generateCacheKey).

    Go [int] values are modelled as [Z].  The solver's sums stay within
    [0, maxSum] with [maxSum <= 10_000_000] and sizes and amounts are
    bounded by validation, so no 64-bit [int] and no [int32] pack count
    or parent index ever wraps; the arithmetic below is therefore
    written without wrap-around. *)

From Stdlib Require Import ZArith Lia Ascii String.
From stdpp Require Import base gmap list sorting strings.

Open Scope Z_scope.

(* ================================================================= *)
(** ** Domain: errors and solutions ([domain/entities.go], [errors.go]) *)

(** The reasons carried by the [ErrInvalidInput] errors of the validators. *)
Inductive ValidationReason :=
| SizesEmpty                 (* "sizes cannot be empty" *)
| SizeNonPositive (size : Z) (* "size must be greater than 0" *)
| SizeTooLarge (size : Z)    (* "size must not exceed 1000000" *)
| SizeDuplicate (size : Z)   (* "duplicate size" *)
| AmountNonPositive (a : Z)  (* "amount must be greater than 0" *)
| AmountTooLarge (a : Z)     (* "amount must not exceed 1000000000" *)
| NoValidSizes.              (* "no valid sizes after normalization" *)

(** Errors returned by a solver.  [ErrCtx] is [ctx.Err()] (canceled or
    deadline exceeded).  [ErrStuck] is not a Go error value: it stands for
    the reconstruction loop indexing out of range or running forever,
    which the lemmas below show never happens. *)
Inductive SolveError :=
| ErrCtx
| ErrInvalidInput (r : ValidationReason)
| ErrNoSolution
| ErrStuck.

Record Solution := mkSolution {
  Breakdown : gmap Z Z;  (* pack size -> quantity *)
  Packs : Z;
  Overage : Z;
  Amount : Z
}.

(** The pair of a solution pointer and an error returned by [Solve]. *)
Inductive Outcome :=
| Ok (s : Solution)
| Err (e : SolveError).

(** [breakdown[size]] with Go's zero default. *)
Definition count (bd : gmap Z Z) (size : Z) : Z := default 0 (bd !! size).

Definition sumPacks (bd : gmap Z Z) : Z :=
  map_fold (fun _ c acc => acc + c) 0 bd.

Definition sumItems (bd : gmap Z Z) : Z :=
  map_fold (fun size c acc => acc + size * c) 0 bd.

(** [NewSolution]. *)
Definition NewSolution (bd : gmap Z Z) (amount : Z) : Solution :=
  let totalPacks := sumPacks bd in
  let totalItems := sumItems bd in
  let overage := if amount <? totalItems then totalItems - amount else 0 in
  {| Breakdown := bd; Packs := totalPacks; Overage := overage;
     Amount := amount |}.

Definition maxSize : Z := 1000000.
Definition maxAmount : Z := 1000000000.

(** The loop of [ValidatePackSizes] with its [seen] map. *)
Fixpoint validateSizesFrom (seen : gset Z) (sizes : list Z)
  : option ValidationReason :=
  match sizes with
  | [] => None
  | size :: rest =>
      if size <=? 0 then Some (SizeNonPositive size)
      else if maxSize <? size then Some (SizeTooLarge size)
      else if decide (size ∈ seen) then Some (SizeDuplicate size)
      else validateSizesFrom ({[size]} ∪ seen) rest
  end.

(** [ValidatePackSizes]: [None] is a nil error. *)
Definition ValidatePackSizes (sizes : list Z) : option ValidationReason :=
  match sizes with
  | [] => Some SizesEmpty
  | _ => validateSizesFrom ∅ sizes
  end.

(** [ValidateAmount]. *)
Definition ValidateAmount (amount : Z) : option ValidationReason :=
  if amount <=? 0 then Some (AmountNonPositive amount)
  else if maxAmount <? amount then Some (AmountTooLarge amount)
  else None.

(** [ValidateSolverInput]. *)
Definition ValidateSolverInput (sizes : list Z) (amount : Z)
  : option ValidationReason :=
  match ValidatePackSizes sizes with
  | Some e => Some e
  | None => ValidateAmount amount
  end.

(** The acceptance condition as the specification words it, kept apart
    from the code to be compared with [ValidateSolverInput]: non-positive
    entries are dropped, the rest must be non-empty and bounded, the raw
    list duplicate-free and the amount in range. *)
Definition specValidInput (sizes : list Z) (amount : Z) : Prop :=
  (exists x, In x sizes /\ 0 < x) /\
  (forall x, In x sizes -> 0 < x -> x <= maxSize) /\
  NoDup sizes /\ 0 < amount <= maxAmount.

(* ================================================================= *)
(** ** The DP solver ([usecase/solver.go]) *)

(** The cancellation context: whether [ctx.Done()] is closed at the check
    on entry to [Solve], and at the periodic check made when the DP loop
    reaches sum [s] (only consulted when [s mod 10000 = 0]). *)
Record Ctx := mkCtx {
  ctx_entry : bool;
  ctx_at : Z -> bool
}.

(** [context.Background()]: never canceled. *)
Definition background : Ctx := mkCtx false (fun _ => false).

(** [normalizeSizes]: the positive sizes are collected in a map (here the
    set of its keys), read back and sorted with [sort.Ints].  Go ranges over
    the map in an unspecified order; sorting makes the result independent
    of it, and [elements] fixes one such order. *)
Fixpoint collectPositive (sizes : list Z) (unique : gset Z) : gset Z :=
  match sizes with
  | [] => unique
  | size :: rest =>
      collectPositive rest (if 0 <? size then {[size]} ∪ unique else unique)
  end.

Definition normalizeSizes (sizes : list Z) : list Z :=
  match sizes with
  | [] => []
  | _ => merge_sort Z.le (elements (collectPositive sizes ∅))
  end.

Definition maxDPSize : Z := 10000000.

(** [calculateMaxSum]. *)
Definition calculateMaxSum (amount : Z) (sizes : list Z) : Z :=
  match sizes with
  | [] => amount
  | minSize :: _ =>
      let maxOverage := minSize - 1 in
      let maxSum := amount + maxOverage in
      if maxDPSize <? maxSum then maxDPSize else maxSum
  end.

(** [dpState]. *)
Record dpState := mkState { packs : Z; parent : Z }.

Definition unset : dpState := mkState (-1) (-1).

(** The DP table [dp := make([]dpState, maxSum+1)], all entries
    [{-1, -1}] except [dp[0] = {0, -1}].  An index absent from the map
    holds the initial [{-1, -1}]. *)
Definition at_ (dp : gmap Z dpState) (i : Z) : dpState :=
  default unset (dp !! i).

Definition initTable : gmap Z dpState := {[0 := mkState 0 (-1)]}.

(** The variables [dp], [bestSum] and [bestPacks] of the DP loop. *)
Record loopState := mkLoop {
  dp : gmap Z dpState;
  bestSum : Z;
  bestPacks : Z
}.

Definition initLoop : loopState := mkLoop initTable (-1) (-1).

(** The best-solution update after a transition reaching [newSum]. *)
Definition updateBest (amount newSum newPacks bestSum bestPacks : Z)
  : Z * Z :=
  if amount <=? newSum then
    let overage := newSum - amount in
    if bestSum =? -1 then (newSum, newPacks)
    else
      let currentOverage := bestSum - amount in
      if (overage <? currentOverage)
         || ((overage =? currentOverage) && (newPacks <? bestPacks))
      then (newSum, newPacks) else (bestSum, bestPacks)
  else (bestSum, bestPacks).

(** "Update state if this is the first reach or better by pack count". *)
Definition relax (dp : gmap Z dpState) (newSum newPacks idx : Z)
  : gmap Z dpState :=
  let cur := at_ dp newSum in
  if (packs cur =? -1) || (newPacks <? packs cur)
  then <[newSum := mkState newPacks idx]> dp else dp.

(** The inner loop [for idx, size := range normalizedSizes] at sum [sum]. *)
Fixpoint tryPacks (amount maxSum sum idx : Z) (sizes : list Z)
    (st : loopState) : loopState :=
  match sizes with
  | [] => st
  | size :: rest =>
      let newSum := sum + size in
      if maxSum <? newSum then tryPacks amount maxSum sum (idx + 1) rest st
      else
        let newPacks := packs (at_ (dp st) sum) + 1 in
        let dp' := relax (dp st) newSum newPacks idx in
        let '(bs, bp) :=
          updateBest amount newSum newPacks (bestSum st) (bestPacks st) in
        tryPacks amount maxSum sum (idx + 1) rest (mkLoop dp' bs bp)
  end.

(** The outer loop [for sum := 0; sum <= maxSum; sum++] from [sum]; the
    fuel is the number of iterations left. *)
Fixpoint fillFrom (fuel : nat) (ctx : Ctx) (sizes : list Z)
    (amount maxSum sum : Z) (st : loopState) : SolveError + loopState :=
  match fuel with
  | O => inr st
  | S fuel' =>
      if maxSum <? sum then inr st
      else if (sum mod 10000 =? 0) && ctx_at ctx sum then inl ErrCtx
      else
        let st' :=
          if packs (at_ (dp st) sum) =? -1 then st
          else tryPacks amount maxSum sum 0 sizes st in
        fillFrom fuel' ctx sizes amount maxSum (sum + 1) st'
  end.

(** The DP table built by [Solve] for normalized sizes [sizes]. *)
Definition fillTable (ctx : Ctx) (sizes : list Z) (amount : Z)
  : SolveError + loopState :=
  let maxSum := calculateMaxSum amount sizes in
  fillFrom (Z.to_nat (maxSum + 1)) ctx sizes amount maxSum 0 initLoop.

(** The loop of [reconstructSolution]; the fuel bounds the iterations and
    [None] stands for running out of it or indexing [sizes] out of range. *)
Fixpoint reconstructFrom (fuel : nat) (dp : gmap Z dpState) (sizes : list Z)
    (currentSum : Z) (bd : gmap Z Z) : option (gmap Z Z) :=
  match fuel with
  | O => None
  | S fuel' =>
      if currentSum <=? 0 then Some bd
      else
        let sizeIdx := parent (at_ dp currentSum) in
        if sizeIdx =? -1 then Some bd
        else if sizeIdx <? 0 then None
        else match nth_error sizes (Z.to_nat sizeIdx) with
             | None => None
             | Some size =>
                 reconstructFrom fuel' dp sizes (currentSum - size)
                   (<[size := count bd size + 1]> bd)
             end
  end.

Definition reconstructSolution (dp : gmap Z dpState) (sizes : list Z)
    (targetSum : Z) : option (gmap Z Z) :=
  reconstructFrom (S (Z.to_nat targetSum)) dp sizes targetSum ∅.

(** The early exit: the first normalized size equal to [amount]. *)
Fixpoint exactPack (amount : Z) (sizes : list Z) : option Z :=
  match sizes with
  | [] => None
  | size :: rest => if size =? amount then Some size else exactPack amount rest
  end.

(** [DPSolver.Solve]. *)
Definition Solve (ctx : Ctx) (sizes : list Z) (amount : Z) : Outcome :=
  if ctx_entry ctx then Err ErrCtx else
  match ValidateSolverInput sizes amount with
  | Some e => Err (ErrInvalidInput e)
  | None =>
      let normalizedSizes := normalizeSizes sizes in
      match normalizedSizes with
      | [] => Err (ErrInvalidInput NoValidSizes)
      | _ =>
          match exactPack amount normalizedSizes with
          | Some size => Ok (NewSolution {[size := 1]} amount)
          | None =>
              match fillTable ctx normalizedSizes amount with
              | inl e => Err e
              | inr st =>
                  if bestSum st =? -1 then Err ErrNoSolution
                  else match reconstructSolution (dp st) normalizedSizes
                               (bestSum st) with
                       | Some bd => Ok (NewSolution bd amount)
                       | None => Err ErrStuck
                       end
              end
          end
      end
  end.

(** Observations used by the examples. *)
Definition summary (o : Outcome) : option (list (Z * Z) * Z * Z) :=
  match o with
  | Ok s =>
      Some (map (fun k => (k, count (Breakdown s) k))
                (merge_sort Z.le (elements (dom (Breakdown s)))),
            Packs s, Overage s)
  | Err _ => None
  end.

Example solve_250 :
  summary (Solve background [250; 500; 1000] 250) = Some ([(250, 1)], 1, 0).
Proof. vm_compute. reflexivity. Qed.

Example solve_251 :
  summary (Solve background [250; 500; 1000] 251) = Some ([(500, 1)], 1, 249).
Proof. vm_compute. reflexivity. Qed.

Example solve_1250 :
  summary (Solve background [250; 500; 1000] 1250)
  = Some ([(250, 1); (1000, 1)], 2, 0).
Proof. vm_compute. reflexivity. Qed.

Example solve_3_5_7 :
  summary (Solve background [3; 5] 7) = Some ([(3, 1); (5, 1)], 2, 1).
Proof. vm_compute. reflexivity. Qed.

Example solve_1001 :
  summary (Solve background [250; 500; 1000] 1001)
  = Some ([(250, 1); (1000, 1)], 2, 249).
Proof. vm_compute. reflexivity. Qed.

Example solve_12001 :
  summary (Solve background [250; 500; 1000; 2000; 5000] 12001)
  = Some ([(250, 1); (2000, 1); (5000, 2)], 4, 249).
Proof. vm_compute. reflexivity. Qed.

(* ================================================================= *)
(** ** Cache key: [generateCacheKey] *)

(** SHA-256 ([crypto/sha256.Sum256]) over 32-bit words held in [Z]. *)
Definition w32 (x : Z) : Z := Z.land x (Z.ones 32).
Definition rotr (x n : Z) : Z := Z.lor (Z.shiftr x n) (w32 (Z.shiftl x (32 - n))).
Definition sha_ch (x y z : Z) : Z :=
  Z.lxor (Z.land x y) (Z.land (Z.lxor x (Z.ones 32)) z).
Definition sha_maj (x y z : Z) : Z :=
  Z.lxor (Z.lxor (Z.land x y) (Z.land x z)) (Z.land y z).
Definition bsig0 (x : Z) : Z := Z.lxor (Z.lxor (rotr x 2) (rotr x 13)) (rotr x 22).
Definition bsig1 (x : Z) : Z := Z.lxor (Z.lxor (rotr x 6) (rotr x 11)) (rotr x 25).
Definition ssig0 (x : Z) : Z := Z.lxor (Z.lxor (rotr x 7) (rotr x 18)) (Z.shiftr x 3).
Definition ssig1 (x : Z) : Z := Z.lxor (Z.lxor (rotr x 17) (rotr x 19)) (Z.shiftr x 10).

(** The round constants and the initial hash value, computed from their
    definition: the first 32 bits of the fractional parts of the cube roots
    of the first 64 primes and of the square roots of the first 8 primes. *)
Definition isPrime (n : Z) : bool :=
  forallb (fun d => negb (n mod d =? 0)) (map Z.of_nat (seq 2 (Z.to_nat n - 2))).

Definition primes : list Z := List.filter isPrime (map Z.of_nat (seq 2 310)).

Fixpoint icbrtAux (b : nat) (n r : Z) : Z :=
  match b with
  | O => r
  | S b' =>
      let c := r + 2 ^ Z.of_nat b' in
      icbrtAux b' n (if c * c * c <=? n then c else r)
  end.

(** Integer cube root of [n < 2 ^ 120]. *)
Definition icbrt (n : Z) : Z := icbrtAux 40 n 0.

Definition sha_K : list Z :=
  map (fun p => w32 (icbrt (p * 2 ^ 96))) (firstn 64 primes).

Definition sha_H0 : list Z :=
  map (fun p => w32 (Z.sqrt (p * 2 ^ 64))) (firstn 8 primes).

(** Message padding: [0x80], zeros up to 56 mod 64, 64-bit bit length. *)
Definition be_bytes (n : nat) (x : Z) : list Z :=
  map (fun i => Z.land (Z.shiftr x (8 * Z.of_nat (n - 1 - i))) 255) (seq 0 n).

Definition sha_pad (msg : list Z) : list Z :=
  let len := Z.of_nat (length msg) in
  let zeros := Z.to_nat ((119 - len mod 64) mod 64) in
  msg ++ [0x80] ++ repeat 0 zeros ++ be_bytes 8 (8 * len).

Fixpoint be_words (fuel : nat) (bytes : list Z) : list Z :=
  match fuel, bytes with
  | S f, b0 :: b1 :: b2 :: b3 :: r =>
      Z.lor (Z.shiftl b0 24) (Z.lor (Z.shiftl b1 16) (Z.lor (Z.shiftl b2 8) b3))
        :: be_words f r
  | _, _ => []
  end.

(** Message schedule: [w] holds [W_0 .. W_{t-1}] in reverse order. *)
Fixpoint sha_schedule (n : nat) (w : list Z) : list Z :=
  match n with
  | O => w
  | S n' =>
      let wt := w32 (ssig1 (nth 1 w 0) + nth 6 w 0 + ssig0 (nth 14 w 0)
                     + nth 15 w 0) in
      sha_schedule n' (wt :: w)
  end.

Definition sha_round (st : list Z) (kw : Z * Z) : list Z :=
  match st with
  | [a; b; c; d; e; f; g; h] =>
      let t1 := w32 (h + bsig1 e + sha_ch e f g + fst kw + snd kw) in
      let t2 := w32 (bsig0 a + sha_maj a b c) in
      [w32 (t1 + t2); a; b; c; w32 (d + t1); e; f; g]
  | _ => st
  end.

Definition sha_block (hs : list Z) (block : list Z) : list Z :=
  let w := rev (sha_schedule 48 (rev block)) in
  let st := fold_left sha_round (combine sha_K w) hs in
  zip_with (fun x y => w32 (x + y)) hs st.

Fixpoint sha_blocks (fuel : nat) (hs : list Z) (words : list Z) : list Z :=
  match fuel with
  | O => hs
  | S f =>
      match words with
      | [] => hs
      | _ => sha_blocks f (sha_block hs (firstn 16 words)) (skipn 16 words)
      end
  end.

Definition sha256 (msg : list Z) : list Z :=
  let padded := sha_pad msg in
  let words := be_words (length padded) padded in
  flat_map (be_bytes 4) (sha_blocks (length words) sha_H0 words).

(** [hex.EncodeToString]: lower-case hexadecimal, two digits per byte. *)
Definition hexDigit (d : Z) : ascii :=
  if d <? 10 then ascii_of_nat (48 + Z.to_nat d)
  else ascii_of_nat (87 + Z.to_nat d).

Definition hexEncode (bytes : list Z) : string :=
  string_of_list_ascii
    (flat_map (fun b => [hexDigit (b / 16); hexDigit (b mod 16)]) bytes).

Definition bytesOf (s : string) : list Z :=
  map (fun c => Z.of_nat (nat_of_ascii c)) (list_ascii_of_string s).

(** [%d] and [%v] on a [[]int]: decimal digits, elements separated by one
    space between brackets. *)
Fixpoint decimalDigits (fuel : nat) (n : Z) (acc : string) : string :=
  match fuel with
  | O => acc
  | S f =>
      let acc' := String (ascii_of_nat (48 + Z.to_nat (n mod 10))) acc in
      if n <? 10 then acc' else decimalDigits f (n / 10) acc'
  end.

Definition formatInt (n : Z) : string :=
  if n <? 0 then String "-" (decimalDigits 64 (- n) EmptyString)
  else decimalDigits 64 n EmptyString.

Definition formatInts (l : list Z) : string :=
  String.append "[" (String.append (String.concat " " (map formatInt l)) "]").

Definition CacheKeyPrefix : string := "solver:".

(** The key built from the already sorted copy. *)
Definition cacheKeyOf (sortedSizes : list Z) (amount : Z) : string :=
  let sizesStr := formatInts sortedSizes in
  let hashStr := hexEncode (sha256 (bytesOf sizesStr)) in
  String.append CacheKeyPrefix
    (String.append hashStr (String.append ":" (formatInt amount))).

(** [sort.Ints] on the copy yields the ascending permutation of [sizes]. *)
Definition generateCacheKey (sizes : list Z) (amount : Z) : string :=
  cacheKeyOf (merge_sort Z.le sizes) amount.

Example sha256_abc :
  hexEncode (sha256 (bytesOf "abc"))
  = "ba7816bf8f01cfea414140de5dae2223b00361a396177a9cb410ff61f20015ad".
Proof. vm_compute. reflexivity. Qed.

Example sha256_empty :
  hexEncode (sha256 (bytesOf ""))
  = "e3b0c44298fc1c149afbf4c8996fb92427ae41e4649b934ca495991b7852b855".
Proof. vm_compute. reflexivity. Qed.

Example sha256_two_blocks :
  hexEncode (sha256 (bytesOf (formatInts (map Z.of_nat (seq 1 39)))))
  = "fcc324e5376eaa19b20f357ab2224785ec1e983f511612e61568cbc7c3023be8".
Proof. vm_compute. reflexivity. Qed.

Example cacheKey_1_2 :
  generateCacheKey [2; 1] 10
  = "solver:9f901106b754d3b187811f5628437ca2076a61e68f2ac1696c4df25dd3c9852c:10".
Proof. vm_compute. reflexivity. Qed.

(* ================================================================= *)
(** ** Cache wrapper: [CachedSolver.Solve] *)

(** [domain.Solver]: anything with a [Solve] method. *)
Class Solver := { solve : Ctx -> list Z -> Z -> Outcome }.

#[global] Instance DPSolver : Solver := { solve := Solve }.

(** What [getFromCache] returns for a key: a decoded solution, or one of
    its three errors (key absent, Redis failure, JSON decode failure). *)
Inductive CacheLookup :=
  | CacheHit (s : Solution)
  | CacheMiss
  | CacheGetError
  | CacheUnmarshalError.

(** The wrapper's own state: the two counters and the [saveToCache]
    goroutines started so far (key and solution to be written). *)
Record CacheState := mkCacheState {
  cacheHits : Z;
  cacheMisses : Z;
  pendingWrites : list (string * Solution)
}.

Definition CachedSolve `{Solver} (getFromCache : string -> CacheLookup)
    (cs : CacheState) (ctx : Ctx) (sizes : list Z) (amount : Z)
    : Outcome * CacheState :=
  let cacheKey := generateCacheKey sizes amount in
  match getFromCache cacheKey with
  | CacheHit solution =>
      (Ok solution,
       mkCacheState (cacheHits cs + 1) (cacheMisses cs) (pendingWrites cs))
  | _ =>
      let cs1 := mkCacheState (cacheHits cs) (cacheMisses cs + 1)
                   (pendingWrites cs) in
      match solve ctx sizes amount with
      | Err e => (Err e, cs1)
      | Ok solution =>
          (Ok solution,
           mkCacheState (cacheHits cs1) (cacheMisses cs1)
             ((cacheKey, solution) :: pendingWrites cs1))
      end
  end.

(* ================================================================= *)
(** ** The callers' slices in memory

    An [[]int] argument is a view [(base, len)] of a backing array in a
    heap of [int] cells; [make] takes cells above every address in use. *)

Abbreviation Heap := (gmap Z Z).

Record Slice := mkSlice { sbase : Z; slen : nat }.

Definition loadSlice (h : Heap) (s : Slice) : list Z :=
  map (fun i => default 0 (h !! (sbase s + Z.of_nat i))) (seq 0 (slen s)).

Fixpoint storeFrom (h : Heap) (a : Z) (l : list Z) : Heap :=
  match l with
  | [] => h
  | x :: r => storeFrom (<[a := x]> h) (a + 1) r
  end.

Definition fresh (h : Heap) : Z :=
  1 + fold_right Z.max 0 (map fst (map_to_list h)).

(** The slice's cells are in use in the heap. *)
Definition allocated (s : Slice) (h : Heap) : Prop :=
  forall i, (i < slen s)%nat -> is_Some (h !! (sbase s + Z.of_nat i)).

(** [make([]int, len(l))] followed by filling it with [l]. *)
Definition allocCopy (h : Heap) (l : list Z) : Slice * Heap :=
  let a := fresh h in (mkSlice a (length l), storeFrom h a l).

(** [generateCacheKey]: copy, [sort.Ints] on the copy, format the copy. *)
Definition generateCacheKeyM (h : Heap) (sizes : Slice) (amount : Z)
    : string * Heap :=
  let '(sortedSizes, h1) := allocCopy h (loadSlice h sizes) in
  let h2 := storeFrom h1 (sbase sortedSizes)
              (merge_sort Z.le (loadSlice h1 sortedSizes)) in
  (cacheKeyOf (loadSlice h2 sortedSizes) amount, h2).

(** [normalizeSizes]: a new [result] slice filled from the set of positive
    sizes, then [sort.Ints(result)]. *)
Definition normalizeSizesM (h : Heap) (sizes : Slice) : Slice * Heap :=
  match loadSlice h sizes with
  | [] => (mkSlice 0 0, h)
  | vals =>
      let '(result, h1) := allocCopy h (elements (collectPositive vals ∅)) in
      (result, storeFrom h1 (sbase result)
                 (merge_sort Z.le (loadSlice h1 result)))
  end.

(** [DPSolver.Solve] on a slice: validation reads it, normalization copies
    it, the DP runs on the copy's values. *)
Definition SolveM (h : Heap) (ctx : Ctx) (sizes : Slice) (amount : Z)
    : Outcome * Heap :=
  let vals := loadSlice h sizes in
  if ctx_entry ctx then (Err ErrCtx, h) else
  match ValidateSolverInput vals amount with
  | Some r => (Err (ErrInvalidInput r), h)
  | None =>
      let '(_, h1) := normalizeSizesM h sizes in (Solve ctx vals amount, h1)
  end.

(** [CachedSolver.Solve] over [DPSolver] on a slice. *)
Definition CachedSolveM (h : Heap) (getFromCache : string -> CacheLookup)
    (cs : CacheState) (ctx : Ctx) (sizes : Slice) (amount : Z)
    : Outcome * CacheState * Heap :=
  let '(cacheKey, h1) := generateCacheKeyM h sizes amount in
  match getFromCache cacheKey with
  | CacheHit solution =>
      (Ok solution,
       mkCacheState (cacheHits cs + 1) (cacheMisses cs) (pendingWrites cs), h1)
  | _ =>
      let cs1 := mkCacheState (cacheHits cs) (cacheMisses cs + 1)
                   (pendingWrites cs) in
      let '(o, h2) := SolveM h1 ctx sizes amount in
      match o with
      | Err e => (Err e, cs1, h2)
      | Ok solution =>
          (Ok solution,
           mkCacheState (cacheHits cs1) (cacheMisses cs1)
             ((cacheKey, solution) :: pendingWrites cs1), h2)
      end
  end.

(* ================================================================= *)
(** ** Solution helpers ([internal/domain/entities.go])

    A [*Solution] is an [option Solution], [None] being the nil pointer.
    The breakdown of a modelled [Solution] is always a map (every
    constructor of the repository allocates it with [make] or a literal),
    so the [Breakdown == nil] branches have no counterpart here.  Ranging
    over a Go map visits its entries in an unspecified order; the loops
    below visit them in the order of [map_to_list]. *)

Definition IsSolutionStrict (solution : option Solution) : bool :=
  match solution with
  | Some s => Overage s =? 0
  | None => false
  end.

Definition CompareSolutions (s1 s2 : option Solution) : option Solution :=
  match s1, s2 with
  | None, _ => s2
  | _, None => s1
  | Some a, Some b =>
      if negb (Overage a =? Overage b) then
        (if Overage a <? Overage b then s1 else s2)
      else if Packs a <? Packs b then s1 else s2
  end.

Definition EmptySolution (amount : Z) : Solution :=
  {| Breakdown := ∅; Packs := 0; Overage := 0; Amount := amount |}.

(** [Solution.TotalItems]. *)
Definition TotalItems (s : Solution) : Z :=
  fold_left (fun total '(size, count) => total + size * count)
    (map_to_list (Breakdown s)) 0.

(** The loop of [Solution.IsValid]: [None] is an early [return false]. *)
Fixpoint isValidFrom (entries : list (Z * Z)) (totalItems : Z) : option Z :=
  match entries with
  | [] => Some totalItems
  | (size, count) :: rest =>
      if (size <=? 0) || (count <? 0) then None
      else isValidFrom rest (totalItems + size * count)
  end.

(** [Solution.IsValid]. *)
Definition IsValid (s : Solution) : bool :=
  match isValidFrom (map_to_list (Breakdown s)) 0 with
  | None => false
  | Some totalItems => Amount s <=? totalItems
  end.

(** The errors of [Solution.Validate]. *)
Inductive SolutionError :=
| SolutionNil
| InvalidAmount (amount : Z)
| InvalidPackSize (size : Z)
| InvalidPackCount (count size : Z)
| PacksMismatch (expected got : Z)
| OverageMismatch (expected got : Z)
| NotCovered (totalItems amount : Z).

(** The loop of [Solution.Validate]. *)
Fixpoint validateEntries (entries : list (Z * Z)) (totalPacks totalItems : Z)
  : SolutionError + (Z * Z) :=
  match entries with
  | [] => inr (totalPacks, totalItems)
  | (size, count) :: rest =>
      if size <=? 0 then inl (InvalidPackSize size)
      else if count <? 0 then inl (InvalidPackCount count size)
      else validateEntries rest (totalPacks + count) (totalItems + size * count)
  end.

(** [Solution.Validate]: [None] is a nil error. *)
Definition Validate (solution : option Solution) : option SolutionError :=
  match solution with
  | None => Some SolutionNil
  | Some s =>
      if Amount s <=? 0 then Some (InvalidAmount (Amount s)) else
      match validateEntries (map_to_list (Breakdown s)) 0 0 with
      | inl e => Some e
      | inr (totalPacks, totalItems) =>
          if negb (totalPacks =? Packs s) then
            Some (PacksMismatch (Packs s) totalPacks)
          else
            let expectedOverage :=
              if Amount s <? totalItems then totalItems - Amount s else 0 in
            if negb (expectedOverage =? Overage s) then
              Some (OverageMismatch (Overage s) expectedOverage)
            else if totalItems <? Amount s then
              Some (NotCovered totalItems (Amount s))
            else None
      end
  end.

(* ================================================================= *)
(** ** The Redis keyspace of the cache

    A stored value is the JSON of a [Solution]; its exported fields and
    integer map keys decode back to the same [Solution], so the keyspace
    is kept as the decoded solutions. *)

Abbreviation Store := (gmap string Solution).

(** [getFromCache] against the keyspace: an absent key is [redis.Nil]. *)
Definition getFromStore (store : Store) (key : string) : CacheLookup :=
  match store !! key with
  | Some solution => CacheHit solution
  | None => CacheMiss
  end.



Inductive ClearError := ScanError | DeleteError.

(** [ClearCache]: [SCAN] with pattern ["solver:*"] (the prefix contains no
    glob metacharacter, so the pattern is a prefix test), then one [DEL] of
    the keys found.  [scanFails] and [delFails] are the Redis failures; a
    failed [DEL] is taken to have deleted nothing. *)
Definition ClearCache (scanFails delFails : bool) (store : Store)
  : option ClearError * Store :=
  let keys := List.filter (fun key => String.prefix CacheKeyPrefix key)
                (map fst (map_to_list store)) in
  if scanFails then (Some ScanError, store) else
  match keys with
  | [] => (None, store)
  | _ =>
      if delFails then (Some DeleteError, store)
      else (None, fold_left (fun st key => delete key st) keys store)
  end.

(** Reading back a run of decimal digits, used to show that the [%d] of
    [formatInt] loses nothing. *)
Fixpoint readDigits (v : Z) (s : string) : Z :=
  match s with
  | EmptyString => v
  | String c rest => readDigits (v * 10 + (Z.of_nat (nat_of_ascii c) - 48)) rest
  end.

(* ================================================================= *)
(** ** Invariants of the DP loop *)

Lemma at_insert (t : gmap Z dpState) k v s :
  at_ (<[k := v]> t) s = if decide (k = s) then v else at_ t s.
Proof. unfold at_. rewrite lookup_insert. by case_decide. Qed.

(** Sum and length of a multiset of packs, given as a list. *)
Fixpoint sumZ (c : list Z) : Z :=
  match c with [] => 0 | x :: r => x + sumZ r end.

Lemma sumZ_app l1 l2 : sumZ (l1 ++ l2) = sumZ l1 + sumZ l2.
Proof. induction l1; simpl; lia. Qed.

Definition reached (st : dpState) : Prop := 0 <= packs st.

(** Lexicographic order on [(overage, packs)]. *)
Definition lexLe (o1 p1 o2 p2 : Z) : Prop := o1 < o2 \/ (o1 = o2 /\ p1 <= p2).
Definition lexLt (o1 p1 o2 p2 : Z) : Prop := o1 < o2 \/ (o1 = o2 /\ p1 < p2).

Lemma updateBest_spec a ns np bs bp :
  0 < a -> (bs = -1 \/ a <= bs) ->
  let '(bs', bp') := updateBest a ns np bs bp in
  (((bs', bp') = (ns, np) /\ a <= ns) \/ (bs', bp') = (bs, bp)) /\
  (bs = -1 \/ (bs' <> -1 /\ lexLe (bs' - a) bp' (bs - a) bp)) /\
  (a <= ns -> bs' <> -1 /\ lexLe (bs' - a) bp' (ns - a) np).
Proof.
  intros Ha Hbs. unfold updateBest, lexLe.
  destruct (Z.leb_spec a ns) as [Hns|Hns].
  - destruct (Z.eqb_spec bs (-1)) as [->|Hb].
    + split; [left; split; auto|split; [left; auto|intros; lia]].
    + destruct (Z.ltb_spec (ns - a) (bs - a)); simpl.
      * split; [left; auto|split; [right; lia|intros; lia]].
      * destruct (Z.eqb_spec (ns - a) (bs - a)); simpl;
          [destruct (Z.ltb_spec np bp)|]; simpl;
          (split; [try (left; split; auto; fail); right; auto|
                   split; [right; lia|intros; lia]]).
  - split; [right; auto|split; [|lia]].
    destruct Hbs; [left; auto|right; lia].
Qed.

(** Totals of a breakdown after [breakdown[size]++]. *)
Lemma fold_add_insert (g : Z -> Z -> Z) (bd : gmap Z Z) k v :
  map_fold (fun k c acc => acc + g k c) 0 (<[k := v]> bd) =
  map_fold (fun k c acc => acc + g k c) 0 bd
  - (match bd !! k with Some w => g k w | None => 0 end) + g k v.
Proof.
  assert (Hc : forall (m : gmap Z Z) (j1 j2 : Z) (z1 z2 y : Z),
             j1 <> j2 -> m !! j1 = Some z1 -> m !! j2 = Some z2 ->
             y + g j2 z2 + g j1 z1 = y + g j1 z1 + g j2 z2) by (intros; lia).
  destruct (bd !! k) as [w|] eqn:E.
  - rewrite (map_fold_delete_L _ 0 k w bd); [|intros; eapply Hc; eauto|exact E].
    rewrite <- insert_delete_eq.
    rewrite map_fold_insert_L; [lia|intros; eapply Hc; eauto|apply lookup_delete_eq].
  - rewrite map_fold_insert_L; [lia|intros; eapply Hc; eauto|exact E].
Qed.

Lemma sumPacks_incr bd k : sumPacks (<[k := count bd k + 1]> bd) = sumPacks bd + 1.
Proof.
  unfold sumPacks, count.
  rewrite (fold_add_insert (fun _ c => c)). destruct (bd !! k); simpl; lia.
Qed.

Lemma sumItems_incr bd k : sumItems (<[k := count bd k + 1]> bd) = sumItems bd + k.
Proof.
  unfold sumItems, count.
  rewrite (fold_add_insert (fun k c => k * c)). destruct (bd !! k); simpl; lia.
Qed.

Section DP.

(** The normalized sizes: all positive. *)
Variable sizes : list Z.
Hypothesis sizes_pos : forall x, In x sizes -> 0 < x.
Variable amount : Z.
Hypothesis amount_pos : 0 < amount.
Variable maxSum : Z.

(** Shape of the table after processing the sums below [p]: every entry
    other than [dp[0] = {0,-1}] is unset or records a pack size whose
    removal leads to a reached, already processed sum with one pack less. *)
Definition StructInv (p : Z) (t : gmap Z dpState) : Prop :=
  at_ t 0 = mkState 0 (-1) /\
  forall s, s <> 0 -> at_ t s = unset \/
    exists size, 0 <= parent (at_ t s) /\
      nth_error sizes (Z.to_nat (parent (at_ t s))) = Some size /\
      0 <= s - size < p /\ reached (at_ t (s - size)) /\
      packs (at_ t s) = packs (at_ t (s - size)) + 1.

(** The table only improves: entries up to [p] are untouched and reached
    entries stay reached with no more packs. *)
Definition improves (p : Z) (t t' : gmap Z dpState) : Prop :=
  (forall s, s <= p -> at_ t' s = at_ t s) /\
  (forall s, reached (at_ t s) ->
     reached (at_ t' s) /\ packs (at_ t' s) <= packs (at_ t s)).

Definition bestLe (st' st : loopState) : Prop :=
  bestSum st = -1 \/
  (bestSum st' <> -1 /\
   lexLe (bestSum st' - amount) (bestPacks st')
         (bestSum st - amount) (bestPacks st)).

(** The best candidate is at least as good as reaching [s] with [n] packs. *)
Definition covers (st : loopState) (s n : Z) : Prop :=
  bestSum st <> -1 /\
  lexLe (bestSum st - amount) (bestPacks st) (s - amount) n.

Definition BestSound (st : loopState) : Prop :=
  bestSum st = -1 \/
  (amount <= bestSum st <= maxSum /\ reached (at_ (dp st) (bestSum st)) /\
   packs (at_ (dp st) (bestSum st)) <= bestPacks st).

Lemma struct_weaken p q t : p <= q -> StructInv p t -> StructInv q t.
Proof.
  intros Hpq [H0 H]. split; [exact H0|]. intros s Hs.
  destruct (H s Hs) as [?|(size & ? & ? & ? & ? & ?)]; [left; auto|].
  right. exists size. repeat split; auto; lia.
Qed.

Lemma struct_cases p t s :
  StructInv p t -> at_ t s = unset \/ 0 <= packs (at_ t s).
Proof.
  intros [H0 H]. destruct (Z.eq_dec s 0) as [->|Hs].
  - right. rewrite H0. simpl. lia.
  - destruct (H s Hs) as [?|(size & _ & _ & _ & Hr & Hp)]; [left; auto|].
    right. unfold reached in Hr. lia.
Qed.

Lemma improves_refl p t : improves p t t.
Proof. split; auto. intros. split; auto; lia. Qed.

Lemma improves_trans p t1 t2 t3 :
  improves p t1 t2 -> improves p t2 t3 -> improves p t1 t3.
Proof.
  intros [A1 B1] [A2 B2]. split.
  - intros s Hs. rewrite A2, A1; auto.
  - intros s Hs. destruct (B1 s Hs) as [R1 P1]. destruct (B2 s R1). split; auto; lia.
Qed.

Lemma bestLe_refl st : bestLe st st.
Proof.
  destruct (Z.eq_dec (bestSum st) (-1)) as [H|H];
    [left; auto|right; split; auto; right; lia].
Qed.

Lemma bestLe_trans st1 st2 st3 :
  bestLe st3 st2 -> bestLe st2 st1 -> bestLe st3 st1.
Proof.
  unfold bestLe, lexLe. intros [H|[H H']] [G|[G G']]; auto; try congruence.
  right. split; auto. lia.
Qed.

Lemma covers_bestLe st st' s n : covers st s n -> bestLe st' st -> covers st' s n.
Proof.
  unfold covers, bestLe, lexLe. intros [H H'] [G|[G G']]; [congruence|].
  split; auto. lia.
Qed.

Lemma relax_other t k np idx s :
  s <> k -> at_ (relax t k np idx) s = at_ t s.
Proof.
  intros Hs. unfold relax. destruct (_ || _); auto.
  rewrite at_insert. case_decide; congruence.
Qed.

Lemma relax_at t k np idx :
  (at_ t k = unset \/ 0 <= packs (at_ t k)) -> 0 <= np ->
  reached (at_ (relax t k np idx) k) /\
  packs (at_ (relax t k np idx) k) <= np /\
  (reached (at_ t k) -> packs (at_ (relax t k np idx) k) <= packs (at_ t k)) /\
  (at_ (relax t k np idx) k = at_ t k \/
   at_ (relax t k np idx) k = mkState np idx).
Proof.
  intros Hk Hnp. unfold relax, reached.
  destruct (Z.eqb_spec (packs (at_ t k)) (-1)) as [E|E];
    destruct (Z.ltb_spec np (packs (at_ t k))) as [L|L]; simpl;
    rewrite ?at_insert; try case_decide; try congruence; simpl;
    try (repeat split; auto; lia).
  destruct Hk as [Hk|Hk]; [rewrite Hk in E; simpl in E; congruence|].
  repeat split; auto; lia.
Qed.

Lemma tryPacks_spec p : 0 <= p ->
  forall rest idx st,
  0 <= idx ->
  (forall j y, nth_error rest j = Some y ->
     nth_error sizes (Z.to_nat idx + j) = Some y) ->
  StructInv (p + 1) (dp st) -> reached (at_ (dp st) p) -> BestSound st ->
  let st' := tryPacks amount maxSum p idx rest st in
  StructInv (p + 1) (dp st') /\ improves p (dp st) (dp st') /\
  bestLe st' st /\ BestSound st' /\
  (forall x, In x rest -> p + x <= maxSum ->
     reached (at_ (dp st') (p + x)) /\
     packs (at_ (dp st') (p + x)) <= packs (at_ (dp st) p) + 1 /\
     (amount <= p + x -> covers st' (p + x) (packs (at_ (dp st) p) + 1))).
Proof.
  intros Hp. induction rest as [|size rest IH];
    intros idx st Hidx Hnth HS Hr HB; simpl.
  { split; [auto|]. split; [apply improves_refl|].
    split; [apply bestLe_refl|]. split; [auto|]. intros x []. }
  assert (Hsz : nth_error sizes (Z.to_nat idx) = Some size).
  { rewrite <- (Nat.add_0_r (Z.to_nat idx)). apply Hnth. reflexivity. }
  assert (Hpos : 0 < size) by (apply sizes_pos; eapply nth_error_In; eauto).
  assert (Hnth' : forall j y, nth_error rest j = Some y ->
            nth_error sizes (Z.to_nat (idx + 1) + j) = Some y).
  { intros j y Hj.
    replace (Z.to_nat (idx + 1) + j)%nat with (Z.to_nat idx + S j)%nat by lia.
    apply Hnth. exact Hj. }
  destruct (Z.ltb_spec maxSum (p + size)) as [Hover|Hin].
  { destruct (IH (idx + 1) st ltac:(lia) Hnth' HS Hr HB)
      as (S1 & I1 & L1 & B1 & C1).
    split; [auto|]. split; [auto|]. split; [auto|]. split; [auto|].
    intros x [<-|Hx] Hle; [lia|]. apply C1; auto. }
  set (np := packs (at_ (dp st) p) + 1).
  set (t1 := relax (dp st) (p + size) np idx).
  assert (Hnp : 0 <= np) by (unfold np, reached in *; lia).
  assert (Hk := relax_at (dp st) (p + size) np idx
                  (struct_cases _ _ _ HS) Hnp).
  fold t1 in Hk. destruct Hk as (Kr & Kp & Kle & Kcase).
  assert (Hoth : forall s, s <> p + size -> at_ t1 s = at_ (dp st) s)
    by (intros; apply relax_other; auto).
  assert (Hp1 : at_ t1 p = at_ (dp st) p) by (apply Hoth; lia).
  assert (S1 : StructInv (p + 1) t1).
  { destruct HS as [H0 H]. split.
    - rewrite Hoth by lia. exact H0.
    - intros s Hs. destruct (Z.eq_dec s (p + size)) as [->|Hne].
      + destruct Kcase as [E|E].
        * rewrite E. destruct (H _ Hs) as [?|(sz & A & B & C & D & F)];
            [left; auto|right; exists sz].
          rewrite !(Hoth (p + size - sz)) by lia.
          repeat split; auto; lia.
        * right. exists size. rewrite E. simpl.
          replace (p + size - size) with p by lia. rewrite Hp1.
          repeat split; auto; lia.
      + rewrite (Hoth s Hne).
        destruct (H _ Hs) as [?|(sz & A & B & C & D & F)]; [left; auto|].
        right. exists sz. rewrite !(Hoth (s - sz)) by lia.
        repeat split; auto; lia. }
  assert (I1 : improves p (dp st) t1).
  { split.
    - intros s Hs. apply Hoth. lia.
    - intros s Hs. destruct (Z.eq_dec s (p + size)) as [->|Hne].
      + split; auto.
      + rewrite Hoth by auto. split; auto; lia. }
  assert (HB' : bestSum st = -1 \/ amount <= bestSum st)
    by (destruct HB as [?|[? _]]; [left|right]; tauto).
  pose proof (updateBest_spec amount (p + size) np (bestSum st) (bestPacks st)
                amount_pos HB') as Hu.
  destruct (updateBest amount (p + size) np (bestSum st) (bestPacks st))
    as [bs bp] eqn:Hub.
  destruct Hu as (Uc & Ule & Ucov).
  set (st1 := mkLoop t1 bs bp).
  assert (L1 : bestLe st1 st) by exact Ule.
  assert (B1 : BestSound st1).
  { unfold BestSound; simpl. destruct Uc as [[E Hns]|E]; inversion E; subst bs bp.
    - right. split; [lia|]. auto.
    - destruct HB as [?|(A & B & C)]; [left; auto|right].
      destruct I1 as [_ I1]. destruct (I1 _ B). repeat split; auto; lia. }
  assert (Hr1 : reached (at_ t1 p)) by (rewrite Hp1; auto).
  destruct (IH (idx + 1) st1 ltac:(lia) Hnth' S1 Hr1 B1)
    as (S2 & I2 & L2 & B2 & C2).
  simpl in S2, I2, C2. fold np. rewrite Hp1 in C2.
  split; [auto|]. split; [eapply improves_trans; eauto|].
  split; [eapply bestLe_trans; eauto|]. split; [auto|].
  intros x [<-|Hx] Hle; [|apply C2; auto].
  destruct I2 as [_ I2]. destruct (I2 _ Kr) as [R2 P2].
  split; [auto|]. split; [lia|].
  intros Ha. eapply covers_bestLe; [|exact L2]. apply Ucov. exact Ha.
Qed.

(** A multiset of packs drawn from [sizes], given as a list. *)
Definition combo (c : list Z) : Prop := forall x, In x c -> In x sizes.

Definition Complete (p : Z) (t : gmap Z dpState) : Prop :=
  forall c, combo c -> sumZ c <= maxSum ->
  (c = [] \/ exists x, In x c /\ sumZ c - x < p) ->
  reached (at_ t (sumZ c)) /\ packs (at_ t (sumZ c)) <= Z.of_nat (length c).

Definition BestComplete (p : Z) (st : loopState) : Prop :=
  forall c, combo c -> amount <= sumZ c <= maxSum ->
  (exists x, In x c /\ sumZ c - x < p) ->
  covers st (sumZ c) (Z.of_nat (length c)).

(** The invariant of the outer loop before it processes sum [p]. *)
Definition OuterInv (p : Z) (st : loopState) : Prop :=
  StructInv p (dp st) /\ Complete p (dp st) /\ BestComplete p st /\
  BestSound st.

Lemma sumZ_nonneg c : combo c -> 0 <= sumZ c.
Proof.
  induction c as [|x c IH]; intros Hc; simpl; [lia|].
  assert (0 < x) by (apply sizes_pos, Hc; left; auto).
  assert (0 <= sumZ c) by (apply IH; intros y Hy; apply Hc; right; auto). lia.
Qed.

Lemma combo_remove c x :
  combo c -> In x c ->
  exists c', combo c' /\ sumZ c = sumZ c' + x /\ length c = S (length c').
Proof.
  intros Hc Hx. destruct (in_split _ _ Hx) as (l1 & l2 & ->).
  exists (l1 ++ l2). split; [|split].
  - intros y Hy. apply Hc. apply in_app_or in Hy. apply in_or_app.
    destruct Hy; [left|right; right]; auto.
  - rewrite !sumZ_app. simpl. lia.
  - rewrite !length_app. simpl. lia.
Qed.

Lemma combo_split p c :
  combo c -> (exists x, In x c /\ sumZ c - x < p + 1) ->
  (exists x, In x c /\ sumZ c - x < p) \/
  (exists x c', In x sizes /\ combo c' /\ sumZ c = sumZ c' + x /\
     length c = S (length c') /\ sumZ c' = p /\
     (c' = [] \/ exists y, In y c' /\ sumZ c' - y < p)).
Proof.
  intros Hc (x & Hx & Hlt).
  destruct (Z.lt_ge_cases (sumZ c - x) p) as [L|G]; [left; eauto|right].
  destruct (combo_remove c x Hc Hx) as (c' & Hc' & Hs & Hl).
  exists x, c'. split; [auto|]. split; [auto|]. split; [auto|].
  split; [auto|]. split; [lia|].
  destruct c' as [|y r]; [left; auto|right]. exists y. split; [left; auto|].
  assert (0 < y) by (apply sizes_pos, Hc'; left; auto). lia.
Qed.

Lemma covers_weaken st s n n' : covers st s n -> n <= n' -> covers st s n'.
Proof. unfold covers, lexLe. intros [H H'] Hn. split; auto. lia. Qed.

Lemma outer_step p st : 0 <= p -> p <= maxSum -> OuterInv p st ->
  OuterInv (p + 1)
    (if packs (at_ (dp st) p) =? -1 then st
     else tryPacks amount maxSum p 0 sizes st).
Proof.
  intros Hp HpM (HS & HC & HBC & HB).
  destruct (Z.eqb_spec (packs (at_ (dp st) p)) (-1)) as [U|R].
  - split; [eapply struct_weaken; [|eauto]; lia|].
    split; [|split; [|auto]].
    + intros c Hc Hle Hcase.
      destruct Hcase as [->|Hx]; [apply HC; auto|].
      destruct (combo_split p c Hc Hx) as [Old|(x & c' & Hxs & Hc' & Hs & _ & Hp' & Hsub)].
      * apply HC; auto.
      * assert (0 <= sumZ c') by (apply sumZ_nonneg; auto).
        assert (0 < x) by (apply sizes_pos; auto). 
        destruct (HC c' Hc' ltac:(lia) Hsub) as [Hr _].
        rewrite Hp' in Hr. unfold reached in Hr. lia.
    + intros c Hc Hle Hx.
      destruct (combo_split p c Hc Hx) as [Old|(x & c' & Hxs & Hc' & Hs & _ & Hp' & Hsub)].
      * apply HBC; auto.
      * assert (0 <= sumZ c') by (apply sumZ_nonneg; auto).
        assert (0 < x) by (apply sizes_pos; auto). 
        destruct (HC c' Hc' ltac:(lia) Hsub) as [Hr _].
        rewrite Hp' in Hr. unfold reached in Hr. lia.
  - assert (Hr : reached (at_ (dp st) p)).
    { destruct (struct_cases _ _ p HS) as [E|E]; [rewrite E in R; simpl in R; lia|auto]. }
    destruct (tryPacks_spec p Hp sizes 0 st ltac:(lia)
                ltac:(intros j y Hj; exact Hj)
                (struct_weaken p (p + 1) _ ltac:(lia) HS) Hr HB)
      as (S' & [I0 I'] & L' & B' & C').
    split; [auto|]. split; [|split; [|auto]].
    + intros c Hc Hle Hcase.
      destruct Hcase as [->|Hx].
      { destruct (HC [] Hc Hle (or_introl eq_refl)) as [A B].
        destruct (I' _ A). split; auto; lia. }
      destruct (combo_split p c Hc Hx) as [Old|(x & c' & Hxs & Hc' & Hs & Hl & Hp' & Hsub)].
      * destruct (HC c Hc Hle (or_intror Old)) as [A B].
        destruct (I' _ A). split; auto; lia.
      * assert (0 <= sumZ c') by (apply sumZ_nonneg; auto).
        assert (0 < x) by (apply sizes_pos; auto).
        destruct (HC c' Hc' ltac:(lia) Hsub) as [_ Hpk].
        rewrite Hp' in Hpk. rewrite Hs, Hp' in Hle |- *.
        destruct (C' x Hxs Hle) as (A & B & _). rewrite Hl. split; auto; lia.
    + intros c Hc Hle Hx.
      destruct (combo_split p c Hc Hx) as [Old|(x & c' & Hxs & Hc' & Hs & Hl & Hp' & Hsub)].
      * eapply covers_bestLe; [apply HBC; auto|exact L'].
      * assert (0 <= sumZ c') by (apply sumZ_nonneg; auto).
        assert (0 < x) by (apply sizes_pos; auto).
        destruct (HC c' Hc' ltac:(lia) Hsub) as [_ Hpk].
        rewrite Hp' in Hpk. rewrite Hs, Hp' in Hle |- *.
        destruct (C' x Hxs ltac:(lia)) as (_ & _ & Cov).
        eapply covers_weaken; [apply Cov; lia|]. rewrite Hl. lia.
Qed.

Lemma outer_init : OuterInv 0 initLoop.
Proof.
  assert (Hat : forall s, s <> 0 -> at_ initTable s = unset).
  { intros s Hs. unfold at_, initTable. rewrite lookup_singleton_ne; auto. }
  assert (H0 : at_ initTable 0 = mkState 0 (-1)) by reflexivity.
  assert (Hno : forall c x, combo c -> In x c -> ~ sumZ c - x < 0).
  { intros c x Hc Hx. destruct (combo_remove c x Hc Hx) as (c' & Hc' & Hs & _).
    pose proof (sumZ_nonneg c' Hc'). lia. }
  split; [|split; [|split]]; simpl.
  - split; [exact H0|]. intros s Hs. left. apply Hat; auto.
  - intros c Hc Hle [->|(x & Hx & Hlt)]; [|exfalso; eapply Hno; eauto].
    simpl. rewrite H0. unfold reached. simpl. lia.
  - intros c Hc Hle (x & Hx & Hlt). exfalso. eapply Hno; eauto.
  - left. reflexivity.
Qed.

Lemma fillFrom_inv ctx : forall fuel p st st',
  0 <= p -> Z.of_nat fuel = maxSum + 1 - p ->
  OuterInv p st ->
  fillFrom fuel ctx sizes amount maxSum p st = inr st' ->
  OuterInv (maxSum + 1) st'.
Proof.
  induction fuel as [|fuel IH]; intros p st st' Hp Hf Hinv Hrun; simpl in Hrun.
  - inversion Hrun; subst. replace (maxSum + 1) with p by lia. exact Hinv.
  - destruct (Z.ltb_spec maxSum p); [lia|].
    destruct (_ && _); [discriminate|].
    refine (IH (p + 1) _ st' ltac:(lia) ltac:(lia) _ Hrun).
    apply outer_step; auto.
Qed.

Lemma final_complete st : OuterInv (maxSum + 1) st ->
  forall c, combo c -> sumZ c <= maxSum ->
  reached (at_ (dp st) (sumZ c)) /\
  packs (at_ (dp st) (sumZ c)) <= Z.of_nat (length c).
Proof.
  intros (_ & HC & _ & _) c Hc Hle. apply HC; auto.
  destruct c as [|x r]; [left; auto|right]. exists x. split; [left; auto|].
  assert (0 < x) by (apply sizes_pos, Hc; left; auto). lia.
Qed.

Lemma final_best st : OuterInv (maxSum + 1) st ->
  forall c, combo c -> amount <= sumZ c <= maxSum ->
  covers st (sumZ c) (Z.of_nat (length c)).
Proof.
  intros (_ & _ & HBC & _) c Hc Hle. apply HBC; auto.
  destruct c as [|x r]; [simpl in Hle; lia|]. exists x. split; [left; auto|].
  assert (0 < x) by (apply sizes_pos, Hc; left; auto). lia.
Qed.

Lemma struct_step q t s :
  StructInv q t -> s <> 0 -> reached (at_ t s) ->
  exists size, 0 <= parent (at_ t s) /\
    nth_error sizes (Z.to_nat (parent (at_ t s))) = Some size /\
    0 < size <= s /\ 0 <= s - size < q /\ reached (at_ t (s - size)) /\
    packs (at_ t s) = packs (at_ t (s - size)) + 1.
Proof.
  intros [_ H] Hs Hr. destruct (H s Hs) as [E|(size & A & B & C & D & F)].
  - rewrite E in Hr. unfold reached in Hr. simpl in Hr. lia.
  - exists size. assert (0 < size) by (apply sizes_pos; eapply nth_error_In; eauto).
    repeat split; auto; lia.
Qed.

Lemma reached_combo q t : StructInv q t ->
  forall n s, (Z.to_nat s < n)%nat -> reached (at_ t s) -> 0 <= s ->
  exists c, combo c /\ sumZ c = s /\ Z.of_nat (length c) = packs (at_ t s).
Proof.
  intros HS. induction n as [|n IH]; intros s Hn Hr Hs; [lia|].
  destruct (Z.eq_dec s 0) as [->|Hne].
  - exists []. destruct HS as [H0 _]. rewrite H0. split; [intros ? []|auto].
  - destruct (struct_step q t s HS Hne Hr) as (size & _ & Hn' & Hsz & Hq & Hr' & Hp).
    destruct (IH (s - size) ltac:(lia) Hr' ltac:(lia)) as (c & Hc & Hsum & Hlen).
    exists (size :: c). split; [|split].
    + intros x [<-|Hx]; [eapply nth_error_In; eauto|auto].
    + simpl. lia.
    + simpl length. rewrite Nat2Z.inj_succ. lia.
Qed.

Lemma reconstructFrom_spec q t : StructInv q t ->
  forall n s bd, (Z.to_nat s < n)%nat -> reached (at_ t s) -> 0 <= s ->
  exists bd', reconstructFrom n t sizes s bd = Some bd' /\
    sumPacks bd' = sumPacks bd + packs (at_ t s) /\
    sumItems bd' = sumItems bd + s /\
    (forall k, is_Some (bd' !! k) -> is_Some (bd !! k) \/ In k sizes).
Proof.
  intros HS. induction n as [|n IH]; intros s bd Hn Hr Hs; [lia|]. simpl.
  destruct (Z.leb_spec s 0) as [Hle|Hgt].
  - assert (s = 0) as -> by lia. exists bd. destruct HS as [H0 _].
    rewrite H0. simpl. repeat split; auto; lia.
  - destruct (struct_step q t s HS ltac:(lia) Hr)
      as (size & Hp0 & Hn' & Hsz & Hq & Hr' & Hp).
    destruct (Z.eqb_spec (parent (at_ t s)) (-1)); [lia|].
    destruct (Z.ltb_spec (parent (at_ t s)) 0); [lia|].
    rewrite Hn'.
    destruct (IH (s - size) (<[size := count bd size + 1]> bd)
                ltac:(lia) Hr' ltac:(lia)) as (bd' & Hrun & Hpk & Hit & Hkeys).
    exists bd'. split; [exact Hrun|]. split; [|split].
    + rewrite Hpk, sumPacks_incr. lia.
    + rewrite Hit, sumItems_incr. lia.
    + intros k Hk. destruct (Hkeys k Hk) as [Hb|Hb]; [|auto].
      rewrite lookup_insert in Hb. case_decide; [subst; right; eapply nth_error_In; eauto|auto].
Qed.

End DP.

(* ================================================================= *)
(** ** Normalization and validation *)

Lemma collectPositive_elem l (acc : gset Z) x :
  x ∈ collectPositive l acc <-> x ∈ acc \/ (In x l /\ 0 < x).
Proof.
  revert acc. induction l as [|y l IH]; intros acc; simpl.
  - split; [auto|]. intros [H|[[] _]]; auto.
  - rewrite IH. destruct (Z.ltb_spec 0 y); rewrite ?elem_of_union, ?elem_of_singleton;
      split; intros; intuition (subst; auto; try lia).
Qed.

Lemma normalizeSizes_In l x : In x (normalizeSizes l) <-> In x l /\ 0 < x.
Proof.
  unfold normalizeSizes. destruct l as [|y r] eqn:E.
  - simpl. tauto.
  - rewrite <- E. rewrite <- list_elem_of_In.
    rewrite (merge_sort_Permutation Z.le). rewrite elem_of_elements.
    rewrite collectPositive_elem. set_solver.
Qed.

Lemma normalizeSizes_pos l x : In x (normalizeSizes l) -> 0 < x.
Proof. rewrite normalizeSizes_In. tauto. Qed.

Lemma normalizeSizes_sorted l : Sorted Z.le (normalizeSizes l).
Proof.
  unfold normalizeSizes. destruct l; [constructor|]. apply Sorted_merge_sort. apply _.
Qed.

Lemma collectPositive_perm l l' (acc : gset Z) :
  Permutation l l' -> collectPositive l acc = collectPositive l' acc.
Proof.
  intros Hp. apply set_eq. intros x. rewrite !collectPositive_elem.
  split; intros [H|[H H']]; auto; right; split; auto;
    [eapply Permutation_in; eauto|eapply Permutation_in; [symmetry|]; eauto].
Qed.

Lemma normalizeSizes_perm l l' :
  Permutation l l' -> normalizeSizes l = normalizeSizes l'.
Proof.
  intros Hp. unfold normalizeSizes.
  destruct l as [|y r], l' as [|y' r'].
  - reflexivity.
  - apply Permutation_nil in Hp. discriminate.
  - symmetry in Hp. apply Permutation_nil in Hp. discriminate.
  - rewrite (collectPositive_perm _ _ ∅ Hp). reflexivity.
Qed.

Lemma validateSizesFrom_ok seen l :
  validateSizesFrom seen l = None <->
  (forall x, In x l -> 0 < x <= maxSize) /\ NoDup l /\
  (forall x, In x l -> x ∉ seen).
Proof.
  revert seen. induction l as [|y l IH]; intros seen; simpl.
  - split; [intros _; split; [intros ? []|split; [constructor|intros ? []]]|auto].
  - destruct (Z.leb_spec y 0) as [Hy|Hy].
    { split; [discriminate|]. intros [H _]. specialize (H y (or_introl eq_refl)). lia. }
    destruct (Z.ltb_spec maxSize y) as [Hm|Hm].
    { split; [discriminate|]. intros [H _]. specialize (H y (or_introl eq_refl)). lia. }
    case_decide as Hs.
    { split; [discriminate|]. intros (_ & _ & H). destruct (H y (or_introl eq_refl) Hs). }
    rewrite IH. split.
    + intros (A & B & C). split; [|split].
      * intros x [<-|Hx]; [lia|auto].
      * constructor; [|auto]. intros Hin. apply list_elem_of_In in Hin.
        apply (C y Hin). set_solver.
      * intros x [<-|Hx]; [auto|]. specialize (C x Hx). set_solver.
    + intros (A & B & C). inversion B; subst. split; [|split].
      * intros x Hx. apply A. right. auto.
      * auto.
      * intros x Hx. rewrite elem_of_union, elem_of_singleton.
        intros [->|Hxs]; [|exact (C x (or_intror Hx) Hxs)].
        match goal with H : y ∉ l |- _ => apply H end.
        apply list_elem_of_In. exact Hx.
Qed.

Lemma ValidateSolverInput_ok sizes amount :
  ValidateSolverInput sizes amount = None <->
  sizes <> [] /\ (forall x, In x sizes -> 0 < x <= maxSize) /\ NoDup sizes /\
  0 < amount <= maxAmount.
Proof.
  unfold ValidateSolverInput, ValidatePackSizes, ValidateAmount.
  destruct sizes as [|y r] eqn:E.
  - split; [discriminate|]. intros [H _]. congruence.
  - rewrite <- E. destruct (validateSizesFrom ∅ sizes) eqn:V.
    + split; [discriminate|]. intros (_ & A & B & _).
      assert (validateSizesFrom ∅ sizes = None) as V'
        by (apply validateSizesFrom_ok; split; [|split]; auto; set_solver).
      congruence.
    + apply validateSizesFrom_ok in V. destruct V as (A & B & _).
      destruct (Z.leb_spec amount 0);
        [split; [discriminate|intros (_ & _ & _ & ?); lia]|].
      destruct (Z.ltb_spec maxAmount amount);
        [split; [discriminate|intros (_ & _ & _ & ?); lia]|].
      split; [intros _|auto]. split; [subst; discriminate|].
      split; [exact A|]. split; [exact B|]. split; assumption.
Qed.

(* ================================================================= *)
(** ** What [Solve] returns *)

Lemma exactPack_some a l size : exactPack a l = Some size -> size = a /\ In size l.
Proof.
  induction l as [|x l IH]; simpl; [discriminate|].
  destruct (Z.eqb_spec x a) as [->|]; [intros [= <-]; auto|].
  intros H. destruct (IH H). auto.
Qed.

Lemma exactPack_none a l : exactPack a l = None -> ~ In a l.
Proof.
  induction l as [|x l IH]; simpl; [auto|].
  destruct (Z.eqb_spec x a); [discriminate|]. intros H [->|Hin]; [auto|].
  apply (IH H Hin).
Qed.

Lemma exactPack_in a l : In a l -> exactPack a l = Some a.
Proof.
  induction l as [|x l IH]; simpl; [tauto|].
  destruct (Z.eqb_spec x a) as [->|Hne]; [auto|]. intros [->|H]; [congruence|auto].
Qed.

Lemma calculateMaxSum_ge amount szs :
  0 < amount -> (forall x, In x szs -> 0 < x) ->
  0 <= calculateMaxSum amount szs.
Proof.
  intros Ha Hp. unfold calculateMaxSum, maxDPSize. destruct szs as [|h r]; [lia|].
  assert (0 < h) by (apply Hp; left; auto).
  destruct (Z.ltb_spec 10000000 (amount + (h - 1))); lia.
Qed.

Lemma fillTable_inv ctx szs amount st :
  (forall x, In x szs -> 0 < x) -> 0 < amount ->
  fillTable ctx szs amount = inr st ->
  OuterInv szs amount (calculateMaxSum amount szs)
    (calculateMaxSum amount szs + 1) st.
Proof.
  intros Hp Ha Hrun. unfold fillTable in Hrun.
  pose proof (calculateMaxSum_ge amount szs Ha Hp).
  refine (fillFrom_inv szs Hp amount Ha _ ctx _ 0 initLoop st ltac:(lia) _ _ Hrun).
  - rewrite Z2Nat.id; lia.
  - apply outer_init; auto.
Qed.

(** The DP path: the reconstructed breakdown realises the best candidate,
    which is optimal among all multisets of [szs]. *)
Lemma dp_solution ctx szs amount st :
  (forall x, In x szs -> 0 < x) -> 0 < amount ->
  fillTable ctx szs amount = inr st -> bestSum st <> -1 ->
  exists bd,
    reconstructSolution (dp st) szs (bestSum st) = Some bd /\
    sumPacks bd = bestPacks st /\ sumItems bd = bestSum st /\
    amount <= bestSum st <= calculateMaxSum amount szs /\
    (forall k, is_Some (bd !! k) -> In k szs) /\
    (forall c, combo szs c -> amount <= sumZ c ->
       lexLe (bestSum st - amount) (bestPacks st)
             (sumZ c - amount) (Z.of_nat (length c))).
Proof.
  intros Hp Ha Hrun Hb.
  set (M := calculateMaxSum amount szs).
  pose proof (fillTable_inv ctx szs amount st Hp Ha Hrun) as Hinv. fold M in Hinv.
  destruct Hinv as (HS & HC & HBC & HB) eqn:Einv.
  destruct HB as [?|(Hrange & Hr & Hle)]; [congruence|].
  destruct (reconstructFrom_spec szs Hp _ _ HS (S (Z.to_nat (bestSum st)))
              (bestSum st) ∅ ltac:(lia) Hr ltac:(lia))
    as (bd & Hrec & Hpk & Hit & Hkeys).
  destruct (reached_combo szs Hp _ _ HS (S (Z.to_nat (bestSum st))) (bestSum st)
              ltac:(lia) Hr ltac:(lia)) as (c0 & Hc0 & Hs0 & Hl0).
  assert (Hopt : forall c, combo szs c -> amount <= sumZ c ->
            lexLe (bestSum st - amount) (bestPacks st)
                  (sumZ c - amount) (Z.of_nat (length c))).
  { intros c Hc Hac. destruct (Z.le_gt_cases (sumZ c) M) as [HM|HM].
    - destruct (final_best szs Hp amount Ha M st Hinv c Hc ltac:(lia)) as [_ L].
      exact L.
    - left. lia. }
  assert (Hbp : bestPacks st = packs (at_ (dp st) (bestSum st))).
  { specialize (Hopt c0 Hc0 ltac:(lia)). rewrite Hs0, Hl0 in Hopt.
    unfold lexLe in Hopt. lia. }
  exists bd. split; [exact Hrec|]. split; [|split; [|split; [|split]]].
  - rewrite Hpk, Hbp. unfold sumPacks. rewrite map_fold_empty. lia.
  - rewrite Hit. unfold sumItems. rewrite map_fold_empty. lia.
  - lia.
  - intros k Hk. destruct (Hkeys k Hk) as [[? E]|]; [rewrite lookup_empty in E; discriminate|auto].
  - exact Hopt.
Qed.

(** Inversion of a successful [Solve]. *)
Lemma Solve_ok_inv ctx sizes amount sol :
  Solve ctx sizes amount = Ok sol ->
  ValidateSolverInput sizes amount = None /\
  ((exactPack amount (normalizeSizes sizes) = Some amount /\
    sol = NewSolution {[amount := 1]} amount) \/
   (exists st bd,
      fillTable ctx (normalizeSizes sizes) amount = inr st /\
      bestSum st <> -1 /\
      reconstructSolution (dp st) (normalizeSizes sizes) (bestSum st) = Some bd /\
      sol = NewSolution bd amount)).
Proof.
  unfold Solve. intros H. destruct (ctx_entry ctx); [discriminate|].
  destruct (ValidateSolverInput sizes amount); [discriminate|].
  split; [reflexivity|].
  destruct (normalizeSizes sizes) as [|h r]; [discriminate|].
  destruct (exactPack amount (h :: r)) as [size|] eqn:E.
  - injection H as <-. left. destruct (exactPack_some _ _ _ E) as [-> _]. auto.
  - destruct (fillTable ctx (h :: r) amount) as [e|st] eqn:F; [discriminate|].
    destruct (Z.eqb_spec (bestSum st) (-1)); [discriminate|].
    destruct (reconstructSolution (dp st) (h :: r) (bestSum st)) as [bd|] eqn:R;
      [|discriminate].
    injection H as <-. right. exists st, bd. auto.
Qed.

Lemma sumItems_singleton k v : sumItems {[k := v]} = k * v.
Proof. unfold sumItems. rewrite map_fold_singleton. lia. Qed.

Lemma sumPacks_singleton k v : sumPacks {[k := v]} = v.
Proof. unfold sumPacks. rewrite map_fold_singleton. lia. Qed.

Lemma tryPacks_keeps_none amount maxSum p : maxSum < amount ->
  forall l idx st, bestSum st = -1 ->
  bestSum (tryPacks amount maxSum p idx l st) = -1.
Proof.
  intros HM. induction l as [|x l IH]; intros idx st Hb; simpl; [auto|].
  destruct (Z.ltb_spec maxSum (p + x)); [auto|].
  unfold updateBest. destruct (Z.leb_spec amount (p + x)); [lia|]. apply IH. exact Hb.
Qed.

Lemma fillFrom_keeps_none ctx szs amount maxSum : maxSum < amount ->
  forall fuel p st st', bestSum st = -1 ->
  fillFrom fuel ctx szs amount maxSum p st = inr st' -> bestSum st' = -1.
Proof.
  intros HM. induction fuel as [|fuel IH]; intros p st st' Hb Hrun; simpl in Hrun.
  - congruence.
  - destruct (maxSum <? p); [congruence|]. destruct (_ && _); [discriminate|].
    eapply IH; [|exact Hrun].
    destruct (_ =? -1); [auto|]. apply tryPacks_keeps_none; auto.
Qed.

Lemma fillFrom_background szs amount maxSum :
  forall fuel p st, exists st', fillFrom fuel background szs amount maxSum p st = inr st'.
Proof.
  induction fuel as [|fuel IH]; intros p st; simpl; [eauto|].
  destruct (maxSum <? p); [eauto|]. rewrite andb_false_r. apply IH.
Qed.

Lemma normalizeSizes_nonempty sizes :
  (exists x, In x sizes /\ 0 < x) ->
  exists h r, normalizeSizes sizes = h :: r.
Proof.
  intros (x & Hx & Hp). destruct (normalizeSizes sizes) as [|h r] eqn:E; [|eauto].
  exfalso. assert (In x (normalizeSizes sizes)) as Hin by (apply normalizeSizes_In; auto).
  rewrite E in Hin. exact Hin.
Qed.

Lemma calculateMaxSum_cap amount h r :
  calculateMaxSum amount (h :: r) <= maxDPSize.
Proof.
  unfold calculateMaxSum. destruct (Z.ltb_spec maxDPSize (amount + (h - 1))); lia.
Qed.

(** With the table capped below the target, no candidate is ever found. *)
Lemma Solve_capped sizes amount :
  ValidateSolverInput sizes amount = None -> maxDPSize < amount ->
  Solve background sizes amount = Err ErrNoSolution.
Proof.
  intros Hv Hcap. pose proof Hv as Hv'.
  apply ValidateSolverInput_ok in Hv' as (Hne & Hb & _ & Ha).
  destruct sizes as [|x0 r0]; [congruence|].
  destruct (normalizeSizes_nonempty (x0 :: r0)) as (h & r & N).
  { exists x0. split; [left; auto|]. apply Hb. left. auto. }
  unfold Solve. simpl ctx_entry. cbv iota. rewrite Hv, N.
  destruct (exactPack amount (h :: r)) as [size|] eqn:E.
  { exfalso. destruct (exactPack_some _ _ _ E) as [-> Hin]. rewrite <- N in Hin.
    apply normalizeSizes_In in Hin as [Hin _]. specialize (Hb _ Hin).
    unfold maxSize, maxDPSize in *. lia. }
  destruct (fillFrom_background (h :: r) amount (calculateMaxSum amount (h :: r))
              (Z.to_nat (calculateMaxSum amount (h :: r) + 1)) 0 initLoop) as [st F].
  unfold fillTable. rewrite F.
  assert (Hmax := calculateMaxSum_cap amount h r).
  rewrite (fillFrom_keeps_none background (h :: r) amount
             (calculateMaxSum amount (h :: r)) ltac:(lia) _ 0 initLoop st
             eq_refl F).
  reflexivity.
Qed.

Lemma sorted_head_min h r x : Sorted Z.le (h :: r) -> In x (h :: r) -> h <= x.
Proof.
  intros Hs Hx. apply Sorted_StronglySorted in Hs; [|intros ? ? ?; lia].
  inversion Hs as [|? ? _ Hf]; subst. destruct Hx as [->|Hx]; [lia|].
  rewrite Forall_forall in Hf. apply Hf. apply list_elem_of_In. exact Hx.
Qed.

Lemma repeat_combo (szs : list Z) m k :
  In m szs -> combo szs (repeat m k) /\ sumZ (repeat m k) = Z.of_nat k * m.
Proof.
  intros Hm. split.
  - intros x Hx. apply repeat_spec in Hx. subst. exact Hm.
  - induction k as [|k IH]; simpl; [lia|]. rewrite IH. lia.
Qed.

(** Below the cap the smallest pack repeated [ceil(amount / m)] times is a
    candidate, so a solution is always found. *)
Lemma Solve_below_cap sizes amount :
  ValidateSolverInput sizes amount = None ->
  (exists m, In m sizes /\ (forall x, In x sizes -> m <= x) /\
             amount + m - 1 <= maxDPSize) ->
  exists sol, Solve background sizes amount = Ok sol.
Proof.
  intros Hv (m & Hm & Hmin & Hcap). pose proof Hv as Hv'.
  apply ValidateSolverInput_ok in Hv' as (Hne & Hb & _ & Ha).
  assert (Hmpos : 0 < m) by (apply Hb; auto).
  destruct (normalizeSizes_nonempty sizes) as (h & r & N); [eauto|].
  assert (Hpos : forall x, In x (h :: r) -> 0 < x)
    by (rewrite <- N; apply normalizeSizes_pos).
  assert (Hh : h = m).
  { assert (In h (normalizeSizes sizes)) as Hh by (rewrite N; left; auto).
    apply normalizeSizes_In in Hh as [Hh _].
    assert (In m (h :: r)) as Hm' by (rewrite <- N; apply normalizeSizes_In; auto).
    pose proof (sorted_head_min h r m ltac:(rewrite <- N; apply normalizeSizes_sorted) Hm').
    specialize (Hmin h Hh). lia. }
  subst h.
  unfold Solve. simpl ctx_entry. cbv iota. rewrite Hv, N.
  destruct (exactPack amount (m :: r)) as [size|] eqn:E; [eauto|].
  destruct (fillFrom_background (m :: r) amount (calculateMaxSum amount (m :: r))
              (Z.to_nat (calculateMaxSum amount (m :: r) + 1)) 0 initLoop) as [st F].
  unfold fillTable. rewrite F.
  assert (HM : calculateMaxSum amount (m :: r) = amount + (m - 1)).
  { unfold calculateMaxSum. destruct (Z.ltb_spec maxDPSize (amount + (m - 1))); lia. }
  pose proof (Z.div_mod (amount + m - 1) m ltac:(lia)) as Dm.
  pose proof (Z.mod_pos_bound (amount + m - 1) m ltac:(lia)) as Bm.
  pose proof (Z.div_pos (amount + m - 1) m ltac:(lia) ltac:(lia)) as Hk0.
  remember ((amount + m - 1) / m) as k eqn:Ek.
  assert (Hk : amount <= k * m <= amount + m - 1) by lia.
  destruct (repeat_combo (m :: r) m (Z.to_nat k) (or_introl eq_refl)) as [Hc Hs].
  rewrite Z2Nat.id in Hs by lia.
  assert (Ha0 : 0 < amount) by lia.
  pose proof (fillTable_inv background (m :: r) amount st Hpos Ha0 F) as Hinv.
  destruct (final_best (m :: r) Hpos amount Ha0 _ st Hinv _ Hc ltac:(lia))
    as [Hbest _].
  destruct (Z.eqb_spec (bestSum st) (-1)); [contradiction|].
  destruct (dp_solution background (m :: r) amount st Hpos Ha0 F Hbest)
    as (bd & R & _).
  rewrite R. eauto.
Qed.

(** Every successful [Solve] builds its solution from a breakdown over the
    input sizes that reaches the amount and is optimal. *)
Lemma Solve_ok_facts ctx sizes amount sol :
  Solve ctx sizes amount = Ok sol ->
  exists bd, sol = NewSolution bd amount /\
    (forall k, is_Some (bd !! k) -> In k sizes) /\
    amount <= sumItems bd /\
    (forall c, (forall x, In x c -> In x sizes) -> amount <= sumZ c ->
       lexLe (sumItems bd - amount) (sumPacks bd)
             (sumZ c - amount) (Z.of_nat (length c))).
Proof.
  intros H.
  destruct (Solve_ok_inv _ _ _ _ H) as [Hv [[Hex ->]|(st & bd & F & Hb & R & ->)]];
    apply ValidateSolverInput_ok in Hv as (Hne & Hpos & _ & Ha).
  - exists {[amount := 1]}. split; [reflexivity|].
    rewrite sumItems_singleton, sumPacks_singleton. split; [|split].
    + intros k [v Hk]. destruct (decide (k = amount)) as [->|Hk'].
      * destruct (exactPack_some _ _ _ Hex) as [_ Hin].
        apply normalizeSizes_In in Hin. tauto.
      * rewrite lookup_singleton_ne in Hk by congruence. discriminate.
    + lia.
    + intros c Hc Hac. destruct c as [|x c']; [simpl in Hac; lia|].
      unfold lexLe. simpl length. lia.
  - destruct (dp_solution ctx _ amount st (normalizeSizes_pos sizes) ltac:(lia) F Hb)
      as (bd' & R' & Hpk & Hit & Hrng & Hkeys & Hopt).
    rewrite R in R'. injection R' as <-.
    exists bd. split; [reflexivity|]. split; [|split].
    + intros k Hk. apply normalizeSizes_In, Hkeys, Hk.
    + lia.
    + intros c Hc Hac. rewrite Hpk, Hit. apply Hopt; [|exact Hac].
      intros x Hx. apply normalizeSizes_In. split; [auto|apply Hpos; auto].
Qed.

Lemma merge_sort_perm_eq (l l' : list Z) :
  Permutation l l' -> merge_sort Z.le l = merge_sort Z.le l'.
Proof.
  intros Hp. apply (Sorted_unique Z.le); [apply Sorted_merge_sort; apply _..|].
  rewrite !merge_sort_Permutation. exact Hp.
Qed.

(* ================================================================= *)
(** ** Frame lemmas for the slice model *)

Lemma fold_max_ge (l : list Z) k : In k l -> k <= fold_right Z.max 0 l.
Proof.
  induction l as [|x l IH]; simpl; [tauto|].
  intros [->|Hk]; [lia|]. specialize (IH Hk). lia.
Qed.

Lemma fresh_gt (h : Heap) k : is_Some (h !! k) -> k < fresh h.
Proof.
  intros [v Hk]. unfold fresh.
  assert (Hin : In k (map fst (map_to_list h))).
  { apply in_map_iff. exists (k, v). split; [reflexivity|].
    apply list_elem_of_In, elem_of_map_to_list, Hk. }
  pose proof (fold_max_ge _ _ Hin). lia.
Qed.

Lemma storeFrom_lt (h : Heap) a l k : k < a -> storeFrom h a l !! k = h !! k.
Proof.
  revert h a. induction l as [|x l IH]; intros h a Hk; simpl; [reflexivity|].
  rewrite IH by lia. apply lookup_insert_ne. lia.
Qed.

Lemma storeFrom_is_Some (h : Heap) a l k :
  is_Some (h !! k) -> is_Some (storeFrom h a l !! k).
Proof.
  revert h a. induction l as [|x l IH]; intros h a Hk; simpl; [exact Hk|].
  apply IH. apply lookup_insert_is_Some'. right. exact Hk.
Qed.

Lemma loadSlice_store_above (h : Heap) s a l :
  (forall i, (i < slen s)%nat -> sbase s + Z.of_nat i < a) ->
  loadSlice (storeFrom h a l) s = loadSlice h s.
Proof.
  intros Hb. unfold loadSlice. apply map_ext_in. intros i Hi.
  apply in_seq in Hi. rewrite storeFrom_lt; [reflexivity|]. apply Hb. lia.
Qed.

Section Frame.

(** The caller's slice. *)
Variable s : Slice.

Lemma allocated_below h :
  allocated s h -> forall i, (i < slen s)%nat -> sbase s + Z.of_nat i < fresh h.
Proof. intros Ha i Hi. apply fresh_gt, Ha, Hi. Qed.

Lemma allocated_store h a l : allocated s h -> allocated s (storeFrom h a l).
Proof. intros Ha i Hi. apply storeFrom_is_Some, Ha, Hi. Qed.

Lemma generateCacheKeyM_frame h amount :
  allocated s h ->
  loadSlice (snd (generateCacheKeyM h s amount)) s = loadSlice h s /\
  allocated s (snd (generateCacheKeyM h s amount)).
Proof.
  intros Ha. pose proof (allocated_below h Ha) as Hb.
  unfold generateCacheKeyM, allocCopy. cbn [snd sbase].
  rewrite !loadSlice_store_above by exact Hb.
  split; [reflexivity|]. apply allocated_store, allocated_store, Ha.
Qed.

Lemma normalizeSizesM_frame h :
  allocated s h ->
  loadSlice (snd (normalizeSizesM h s)) s = loadSlice h s /\
  allocated s (snd (normalizeSizesM h s)).
Proof.
  intros Ha. pose proof (allocated_below h Ha) as Hb.
  unfold normalizeSizesM, allocCopy.
  destruct (loadSlice h s) as [|v vs] eqn:E; cbn [snd sbase]; [auto|].
  rewrite !loadSlice_store_above by exact Hb.
  split; [exact E|]. apply allocated_store, allocated_store, Ha.
Qed.

Lemma SolveM_frame h ctx amount :
  allocated s h ->
  loadSlice (snd (SolveM h ctx s amount)) s = loadSlice h s /\
  allocated s (snd (SolveM h ctx s amount)).
Proof.
  intros Ha. unfold SolveM.
  destruct (ctx_entry ctx); [auto|].
  destruct (ValidateSolverInput (loadSlice h s) amount); [auto|].
  pose proof (normalizeSizesM_frame h Ha) as Hn.
  destruct (normalizeSizesM h s) as [r h1]. exact Hn.
Qed.

Lemma CachedSolveM_frame h getFromCache cs ctx amount :
  allocated s h ->
  loadSlice (snd (CachedSolveM h getFromCache cs ctx s amount)) s
  = loadSlice h s.
Proof.
  intros Ha. unfold CachedSolveM.
  pose proof (generateCacheKeyM_frame h amount Ha) as [Hk1 Hk2].
  destruct (generateCacheKeyM h s amount) as [cacheKey h1]. simpl in Hk1, Hk2.
  destruct (getFromCache cacheKey); [exact Hk1|..];
    pose proof (SolveM_frame h1 ctx amount Hk2) as [Hs1 _];
    destruct (SolveM h1 ctx s amount) as [[sol|e] h2]; simpl in *; congruence.
Qed.

End Frame.

(* ================================================================= *)
(** ** Specification claims *)

(** C1: a solution returned by [Solve] is optimal: no multiset of the
    input sizes whose total reaches the amount has a lexicographically
    smaller pair (overage, number of packs). *)
Theorem Solve_optimal ctx sizes amount sol :
  Solve ctx sizes amount = Ok sol ->
  forall c, (forall x, In x c -> In x sizes) -> amount <= sumZ c ->
  ~ lexLt (sumZ c - amount) (Z.of_nat (length c)) (Overage sol) (Packs sol).
Proof.
  intros H c Hc Hac.
  destruct (Solve_ok_facts _ _ _ _ H) as (bd & -> & _ & Hcov & Hopt).
  specialize (Hopt c Hc Hac). unfold NewSolution; simpl.
  unfold lexLe, lexLt in *. destruct (Z.ltb_spec amount (sumItems bd)); lia.
Qed.

Lemma Solve_optimal_witness :
  Solve background [3; 5] 7 = Ok (NewSolution (<[3 := 1]> {[5 := 1]}) 7) /\
  ~ lexLt (sumZ [5; 5] - 7) (Z.of_nat (length [5; 5]))
      (Overage (NewSolution (<[3 := 1]> {[5 := 1]}) 7))
      (Packs (NewSolution (<[3 := 1]> {[5 := 1]}) 7)).
Proof.
  assert (E : Solve background [3; 5] 7
              = Ok (NewSolution (<[3 := 1]> {[5 := 1]}) 7))
    by (vm_compute; reflexivity).
  split; [exact E|].
  exact (Solve_optimal background [3; 5] 7 _ E [5; 5]
           ltac:(intros x Hx; simpl in *; tauto) ltac:(simpl; lia)).
Defined.

(** C2: a solution returned by [Solve] only uses input sizes, never
    under-delivers, and its pack count and overage are those of its
    breakdown. *)
Theorem Solve_solution_invariant ctx sizes amount sol :
  Solve ctx sizes amount = Ok sol ->
  (forall k, is_Some (Breakdown sol !! k) -> In k sizes) /\
  amount <= sumItems (Breakdown sol) /\
  Packs sol = sumPacks (Breakdown sol) /\
  Overage sol = sumItems (Breakdown sol) - amount.
Proof.
  intros H. destruct (Solve_ok_facts _ _ _ _ H) as (bd & -> & Hk & Hcov & _).
  unfold NewSolution; simpl. split; [exact Hk|].
  destruct (Z.ltb_spec amount (sumItems bd)); repeat split; lia.
Qed.

Lemma Solve_solution_invariant_witness :
  Solve background [3; 5] 7 = Ok (NewSolution (<[3 := 1]> {[5 := 1]}) 7) /\
  7 <= sumItems (Breakdown (NewSolution (<[3 := 1]> {[5 := 1]}) 7)) /\
  Overage (NewSolution (<[3 := 1]> {[5 := 1]}) 7)
  = sumItems (Breakdown (NewSolution (<[3 := 1]> {[5 := 1]}) 7)) - 7.
Proof.
  assert (E : Solve background [3; 5] 7
              = Ok (NewSolution (<[3 := 1]> {[5 := 1]}) 7))
    by (vm_compute; reflexivity).
  destruct (Solve_solution_invariant background [3; 5] 7 _ E)
    as (_ & Hcov & _ & Hov).
  split; [exact E|]. split; [exact Hcov|exact Hov].
Defined.

(** C3 (amended): for a valid input and no cancellation, [Solve] returns a
    solution whenever the amount plus the smallest size minus one fits in
    the capped table of [10_000_000] sums; past the cap, once the amount
    itself exceeds it, no candidate is reachable and [Solve] returns the
    no-solution error. *)
Theorem Solve_total_below_cap sizes amount :
  ValidateSolverInput sizes amount = None ->
  ((exists m, In m sizes /\ (forall x, In x sizes -> m <= x) /\
              amount + m - 1 <= maxDPSize) ->
   exists sol, Solve background sizes amount = Ok sol) /\
  (maxDPSize < amount -> Solve background sizes amount = Err ErrNoSolution).
Proof.
  intros Hv. split; [apply Solve_below_cap; exact Hv|apply Solve_capped; exact Hv].
Qed.

Lemma Solve_total_below_cap_witness :
  ValidateSolverInput [3; 5] 7 = None /\
  exists sol, Solve background [3; 5] 7 = Ok sol.
Proof.
  assert (Hv : ValidateSolverInput [3; 5] 7 = None) by (vm_compute; reflexivity).
  split; [exact Hv|].
  apply (proj1 (Solve_total_below_cap [3; 5] 7 Hv)).
  exists 3. split; [simpl; tauto|]. split; [|unfold maxDPSize; lia].
  intros x Hx. simpl in Hx. lia.
Defined.

(** C3 fails as stated: a valid input whose amount exceeds the table cap
    gets the no-solution error. *)
Lemma Solve_no_solution_counterexample :
  ValidateSolverInput [1] 1000000000 = None /\
  Solve background [1] 1000000000 = Err ErrNoSolution.
Proof.
  assert (Hv : ValidateSolverInput [1] 1000000000 = None)
    by (vm_compute; reflexivity).
  split; [exact Hv|]. apply Solve_capped; [exact Hv|unfold maxDPSize; lia].
Qed.

(** C4: for a valid input, permuting the sizes does not change what
    [Solve] returns. *)
Theorem Solve_permutation_invariant ctx sizes sizes' amount :
  ValidateSolverInput sizes amount = None -> Permutation sizes sizes' ->
  Solve ctx sizes' amount = Solve ctx sizes amount.
Proof.
  intros Hv Hp.
  assert (Hv' : ValidateSolverInput sizes' amount = None).
  { pose proof Hv as Hv0.
    apply ValidateSolverInput_ok in Hv0 as (Hne & Hb & Hnd & Ha).
    apply ValidateSolverInput_ok. split; [|split; [|split]].
    - intros ->. apply Hne, Permutation_nil, Permutation_sym, Hp.
    - intros x Hx. apply Hb. eapply Permutation_in; [symmetry; exact Hp|exact Hx].
    - rewrite <- Hp. exact Hnd.
    - exact Ha. }
  unfold Solve. rewrite Hv, Hv', (normalizeSizes_perm sizes sizes' Hp).
  reflexivity.
Qed.

Lemma Solve_permutation_invariant_witness :
  ValidateSolverInput [250; 500; 1000] 251 = None /\
  Permutation [250; 500; 1000] [1000; 250; 500] /\
  Solve background [1000; 250; 500] 251 = Solve background [250; 500; 1000] 251.
Proof.
  assert (Hv : ValidateSolverInput [250; 500; 1000] 251 = None)
    by (vm_compute; reflexivity).
  assert (Hp : Permutation [250; 500; 1000] [1000; 250; 500])
    by (apply Permutation_sym, (Permutation_cons_append [250; 500] 1000)).
  split; [exact Hv|]. split; [exact Hp|].
  exact (Solve_permutation_invariant background _ _ 251 Hv Hp).
Defined.

(** C5 fails as stated: [[0; 250]] with amount [100] meets the worded
    condition (non-positive entries dropped) but validation rejects the
    non-positive entry. *)
Lemma validation_counterexample :
  specValidInput [0; 250] 100 /\
  ValidateSolverInput [0; 250] 100 = Some (SizeNonPositive 0).
Proof.
  split; [|vm_compute; reflexivity].
  split; [exists 250; split; [simpl; tauto|lia]|].
  split; [intros x Hx _; simpl in Hx; unfold maxSize; lia|].
  split; [|unfold maxAmount; lia].
  constructor; [|constructor; [set_solver|constructor]]. set_solver.
Qed.

(** C5 (amended): validation accepts exactly the non-empty lists of
    distinct sizes, all in [1 .. 1_000_000], with an amount in
    [1 .. 1_000_000_000]; any non-positive entry is rejected. *)
Theorem validation_iff sizes amount :
  ValidateSolverInput sizes amount = None <->
  sizes <> [] /\ (forall x, In x sizes -> 0 < x <= maxSize) /\
  NoDup sizes /\ 0 < amount <= maxAmount.
Proof. apply ValidateSolverInput_ok. Qed.

(** C8: when a size equals the amount, [Solve] returns the one-pack exact
    solution before the table is built: the result holds for every
    cancellation oracle, also one that cancels at each check of the loop. *)
Theorem Solve_exact_pack ctx sizes amount :
  ctx_entry ctx = false -> ValidateSolverInput sizes amount = None ->
  In amount sizes ->
  Solve ctx sizes amount = Ok (NewSolution {[amount := 1]} amount) /\
  Breakdown (NewSolution {[amount := 1]} amount) = {[amount := 1]} /\
  Packs (NewSolution {[amount := 1]} amount) = 1 /\
  Overage (NewSolution {[amount := 1]} amount) = 0.
Proof.
  intros Hc Hv Hin. pose proof Hv as Hv0.
  apply ValidateSolverInput_ok in Hv0 as (_ & Hb & _ & Ha).
  assert (Hn : In amount (normalizeSizes sizes))
    by (apply normalizeSizes_In; split; [exact Hin|lia]).
  split.
  - unfold Solve. rewrite Hc, Hv.
    destruct (normalizeSizes sizes) as [|h r]; [contradiction|].
    rewrite (exactPack_in _ _ Hn). reflexivity.
  - unfold NewSolution; simpl. rewrite sumItems_singleton, sumPacks_singleton.
    destruct (Z.ltb_spec amount (amount * 1)); repeat split; lia.
Qed.

Lemma Solve_exact_pack_witness :
  Solve (mkCtx false (fun _ => true)) [250; 500; 1000] 500
  = Ok (NewSolution {[500 := 1]} 500).
Proof.
  exact (proj1 (Solve_exact_pack (mkCtx false (fun _ => true)) [250; 500; 1000] 500
                  eq_refl ltac:(vm_compute; reflexivity) ltac:(simpl; tauto))).
Defined.

(** C9: from any sum of a table built by the solver that records a
    predecessor, the predecessor step removes a positive size, and the
    reconstruction loop ends with a breakdown whose counts sum to the
    packs recorded for that sum. *)
Theorem reconstruct_terminates ctx sizes amount st s :
  0 < amount ->
  fillTable ctx (normalizeSizes sizes) amount = inr st ->
  parent (at_ (dp st) s) <> -1 ->
  (exists size,
     nth_error (normalizeSizes sizes) (Z.to_nat (parent (at_ (dp st) s)))
       = Some size /\
     0 < size <= s /\
     packs (at_ (dp st) s) = packs (at_ (dp st) (s - size)) + 1) /\
  exists bd,
    reconstructSolution (dp st) (normalizeSizes sizes) s = Some bd /\
    sumPacks bd = packs (at_ (dp st) s).
Proof.
  intros Ha F Hpar. set (szs := normalizeSizes sizes).
  assert (Hp : forall x, In x szs -> 0 < x) by apply normalizeSizes_pos.
  destruct (fillTable_inv ctx szs amount st Hp Ha F) as (HS & _ & _ & _).
  assert (Hr : reached (at_ (dp st) s)).
  { destruct (struct_cases szs _ (dp st) s HS) as [E|E];
      [rewrite E in Hpar; simpl in Hpar; congruence|exact E]. }
  assert (Hs0 : s <> 0).
  { intros ->. destruct HS as [H0 _]. rewrite H0 in Hpar. simpl in Hpar. congruence. }
  destruct (struct_step szs Hp _ _ s HS Hs0 Hr)
    as (size & _ & Hn & Hsz & _ & _ & Hpk).
  split; [exists size; auto|].
  destruct (reconstructFrom_spec szs Hp _ _ HS (S (Z.to_nat s)) s ∅
              ltac:(lia) Hr ltac:(lia)) as (bd & R & Hpk' & _).
  exists bd. split; [exact R|].
  unfold sumPacks in *. rewrite map_fold_empty in Hpk'. lia.
Qed.

Lemma reconstruct_terminates_witness :
  exists st, fillTable background (normalizeSizes [3; 5]) 7 = inr st /\
    parent (at_ (dp st) 8) <> -1 /\
    exists bd, reconstructSolution (dp st) (normalizeSizes [3; 5]) 8 = Some bd /\
      sumPacks bd = packs (at_ (dp st) 8).
Proof.
  destruct (fillTable background (normalizeSizes [3; 5]) 7) as [e|st] eqn:E.
  - vm_compute in E. discriminate.
  - assert (Hp : parent (at_ (dp st) 8) <> -1).
    { vm_compute in E. injection E as <-. vm_compute. discriminate. }
    exists st. split; [reflexivity|]. split; [exact Hp|].
    exact (proj2 (reconstruct_terminates background [3; 5] 7 st 8
                    ltac:(lia) E Hp)).
Defined.

(** C6 fails as stated: [[1; 2]] and [[1; 2; 2]] have the same set of
    values, yet the duplicate survives the sort and the keys differ. *)
Lemma generateCacheKey_counterexample :
  generateCacheKey [1; 2] 10 <> generateCacheKey [1; 2; 2] 10.
Proof. vm_compute. discriminate. Qed.

(** C6 (amended): the key depends on the sizes only through their sorted
    order with duplicates kept: permuted lists give the same key. *)
Theorem generateCacheKey_perm sizes sizes' amount :
  Permutation sizes sizes' ->
  generateCacheKey sizes amount = generateCacheKey sizes' amount.
Proof.
  intros Hp. unfold generateCacheKey. rewrite (merge_sort_perm_eq _ _ Hp).
  reflexivity.
Qed.

Lemma generateCacheKey_perm_witness :
  Permutation [500; 250] [250; 500] /\
  generateCacheKey [500; 250] 251 = generateCacheKey [250; 500] 251.
Proof.
  assert (Hp : Permutation [500; 250] [250; 500]) by apply perm_swap.
  split; [exact Hp|]. exact (generateCacheKey_perm _ _ 251 Hp).
Defined.

(** C7: a solver error on a failed lookup reaches the caller unchanged and
    starts no cache write; every error of the wrapper is the inner
    solver's, returned after a failed lookup; and after a failed lookup
    the wrapper returns exactly what the inner solver returns. *)
Theorem CachedSolve_errors `{Solver} getFromCache cs ctx sizes amount :
  ((forall sol, getFromCache (generateCacheKey sizes amount) <> CacheHit sol) ->
   forall e, solve ctx sizes amount = Err e ->
   fst (CachedSolve getFromCache cs ctx sizes amount) = Err e /\
   pendingWrites (snd (CachedSolve getFromCache cs ctx sizes amount))
   = pendingWrites cs) /\
  (forall e, fst (CachedSolve getFromCache cs ctx sizes amount) = Err e ->
   (forall sol, getFromCache (generateCacheKey sizes amount) <> CacheHit sol) /\
   solve ctx sizes amount = Err e /\
   pendingWrites (snd (CachedSolve getFromCache cs ctx sizes amount))
   = pendingWrites cs) /\
  ((forall sol, getFromCache (generateCacheKey sizes amount) <> CacheHit sol) ->
   fst (CachedSolve getFromCache cs ctx sizes amount) = solve ctx sizes amount).
Proof.
  unfold CachedSolve.
  destruct (getFromCache (generateCacheKey sizes amount)) as [sol0| | |];
    [split; [|split];
       [intros Hm; destruct (Hm sol0 eq_refl)
       |simpl; intros e [=]
       |intros Hm; destruct (Hm sol0 eq_refl)]
    |destruct (solve ctx sizes amount) as [sol|e0]; simpl;
       (split; [|split]);
       solve [ reflexivity | intros _ e [=] | intros e [=]
             | intros _ e [= <-]; auto
             | intros e [= <-]; split; [intros ? [=]|auto] ] ..].
Qed.

Lemma CachedSolve_errors_witness :
  fst (CachedSolve (fun _ => CacheGetError) (mkCacheState 0 0 []) background [] 5)
  = Err (ErrInvalidInput SizesEmpty) /\
  pendingWrites (snd (CachedSolve (fun _ => CacheGetError) (mkCacheState 0 0 [])
                        background [] 5)) = [].
Proof.
  exact (proj1 (CachedSolve_errors (fun _ => CacheGetError) (mkCacheState 0 0 [])
                  background [] 5)
           ltac:(intros sol; discriminate) (ErrInvalidInput SizesEmpty)
           ltac:(vm_compute; reflexivity)).
Defined.

(** C10: neither [DPSolver.Solve] nor [CachedSolver.Solve] changes the
    caller's slice: its cells hold the same values in the same order
    after the call, whatever the outcome. *)
Theorem caller_slice_preserved h getFromCache cs ctx sizes amount :
  allocated sizes h ->
  loadSlice (snd (SolveM h ctx sizes amount)) sizes = loadSlice h sizes /\
  loadSlice (snd (CachedSolveM h getFromCache cs ctx sizes amount)) sizes
  = loadSlice h sizes.
Proof.
  intros Ha. split; [apply (SolveM_frame sizes h ctx amount Ha)|].
  apply CachedSolveM_frame, Ha.
Qed.

Lemma caller_slice_preserved_witness :
  loadSlice (snd (SolveM (<[10 := 5]> {[11 := 3]}) background (mkSlice 10 2) 7))
    (mkSlice 10 2) = [5; 3] /\
  loadSlice (snd (CachedSolveM (<[10 := 5]> {[11 := 3]}) (fun _ => CacheMiss)
                    (mkCacheState 0 0 []) background (mkSlice 10 2) 7))
    (mkSlice 10 2) = [5; 3].
Proof.
  assert (Ha : allocated (mkSlice 10 2) (<[10 := 5]> {[11 := 3]})).
  { intros i Hi. destruct i as [|[|i]]; [vm_compute; eauto|vm_compute; eauto|simpl in Hi; lia]. }
  exact (caller_slice_preserved (<[10 := 5]> {[11 := 3]}) (fun _ => CacheMiss)
           (mkCacheState 0 0 []) background (mkSlice 10 2) 7 Ha).
Defined.

(* ================================================================= *)
(** ** Further properties: checking solutions *)

Lemma validateEntries_spec (l : list (Z * Z)) p i :
  (Forall (uncurry (fun k v => 0 < k /\ 0 <= v)) l ->
   validateEntries l p i
   = inr (p + foldr (uncurry (fun (_ : Z) (c acc : Z) => acc + c)) 0 l,
          i + foldr (uncurry (fun (size c acc : Z) => acc + size * c)) 0 l)) /\
  (forall tp ti, validateEntries l p i = inr (tp, ti) ->
   Forall (uncurry (fun k v => 0 < k /\ 0 <= v)) l).
Proof.
  revert p i. induction l as [|[k v] l IH]; intros p i; simpl.
  - split; [intros _; f_equal; f_equal; lia|intros; constructor].
  - split.
    + intros Hf. rewrite Forall_cons in Hf; simpl in Hf; destruct Hf as [[Hk Hv] Hr].
      destruct (Z.leb_spec k 0); [lia|]. destruct (Z.ltb_spec v 0); [lia|].
      rewrite (proj1 (IH _ _) Hr). f_equal. f_equal; lia.
    + intros tp ti.
      destruct (Z.leb_spec k 0); [discriminate|].
      destruct (Z.ltb_spec v 0); [discriminate|].
      intros Hv. constructor; [simpl; lia|]. exact (proj2 (IH _ _) _ _ Hv).
Qed.

Lemma isValidFrom_spec (l : list (Z * Z)) i :
  Forall (uncurry (fun k v => 0 < k /\ 0 <= v)) l ->
  isValidFrom l i
  = Some (i + foldr (uncurry (fun (size c acc : Z) => acc + size * c)) 0 l).
Proof.
  revert i. induction l as [|[k v] l IH]; intros i Hf; simpl; [f_equal; lia|].
  rewrite Forall_cons in Hf; simpl in Hf; destruct Hf as [[Hk Hv] Hr].
  destruct (Z.leb_spec k 0); [lia|]. destruct (Z.ltb_spec v 0); [lia|].
  simpl. rewrite (IH _ Hr). f_equal. lia.
Qed.

Lemma TotalItems_sumItems s : TotalItems s = sumItems (Breakdown s).
Proof.
  unfold TotalItems, sumItems. rewrite map_fold_foldr.
  generalize (map_to_list (Breakdown s)) as l.
  assert (G : forall l i, fold_left (fun total '(size, count) => total + size * count) l i
              = i + foldr (uncurry (fun (size c acc : Z) => acc + size * c)) 0 l).
  { induction l as [|[k v] l IH]; intros i; simpl; [lia|]. rewrite IH. lia. }
  intros l. rewrite G. lia.
Qed.

Lemma Validate_none_iff s :
  Validate (Some s) = None <->
  0 < Amount s /\
  map_Forall (fun size count => 0 < size /\ 0 <= count) (Breakdown s) /\
  Packs s = sumPacks (Breakdown s) /\
  Amount s <= sumItems (Breakdown s) /\
  Overage s = sumItems (Breakdown s) - Amount s.
Proof.
  unfold Validate, sumPacks, sumItems. rewrite !map_fold_foldr, map_Forall_to_list.
  destruct (Z.leb_spec (Amount s) 0) as [Ha|Ha].
  { split; [discriminate|lia]. }
  destruct (validateEntries (map_to_list (Breakdown s)) 0 0) as [e|[tp ti]] eqn:E.
  - split; [discriminate|]. intros (_ & Hf & _).
    rewrite (proj1 (validateEntries_spec _ 0 0) Hf) in E. discriminate.
  - pose proof (proj2 (validateEntries_spec _ 0 0) _ _ E) as Hf.
    rewrite (proj1 (validateEntries_spec _ 0 0) Hf) in E. injection E as <- <-.
    destruct (Z.eqb_spec (0 + foldr (uncurry (fun (_ : Z) (c acc : Z) => acc + c)) 0
                (map_to_list (Breakdown s))) (Packs s)); simpl;
      [|split; [discriminate|lia]].
    destruct (Z.ltb_spec (Amount s) (0 + foldr (uncurry (fun (size c acc : Z) => acc + size * c)) 0
                (map_to_list (Breakdown s)))).
    + destruct (Z.eqb_spec (0 + foldr (uncurry (fun (size c acc : Z) => acc + size * c)) 0
                  (map_to_list (Breakdown s)) - Amount s) (Overage s)); simpl;
        [|split; [discriminate|lia]].
      destruct (Z.ltb_spec (0 + foldr (uncurry (fun (size c acc : Z) => acc + size * c)) 0
                  (map_to_list (Breakdown s))) (Amount s)); [lia|].
      split; [intros _; repeat split; auto; lia|auto].
    + destruct (Z.eqb_spec 0 (Overage s)); simpl; [|split; [discriminate|lia]].
      destruct (Z.ltb_spec (0 + foldr (uncurry (fun (size c acc : Z) => acc + size * c)) 0
                  (map_to_list (Breakdown s))) (Amount s)).
      * split; [discriminate|lia].
      * split; [intros _; repeat split; auto; lia|auto].
Qed.



Lemma Validate_implies_IsValid s :
  Validate (Some s) = None -> IsValid s = true.
Proof.
  intros H. apply Validate_none_iff in H as (_ & Hf & _ & Hcov & _).
  unfold IsValid. apply map_Forall_to_list in Hf.
  rewrite (isValidFrom_spec _ 0 Hf). unfold sumItems in Hcov.
  rewrite map_fold_foldr in Hcov. apply Z.leb_le. lia.
Qed.



(** [EmptySolution]: [IsValid] holds exactly when the amount is not
    positive, while [Validate] rejects it for every amount (a non-positive
    amount, or a positive one left uncovered). *)
Theorem EmptySolution_checks amount :
  IsValid (EmptySolution amount) = (amount <=? 0) /\
  Validate (Some (EmptySolution amount))
  = Some (if amount <=? 0 then InvalidAmount amount else NotCovered 0 amount).
Proof.
  unfold IsValid, Validate, EmptySolution; simpl. rewrite map_to_list_empty. simpl.
  split; [reflexivity|].
  destruct (Z.leb_spec amount 0); [reflexivity|].
  destruct (Z.ltb_spec amount 0); [lia|]. simpl.
  destruct (Z.ltb_spec 0 amount); [reflexivity|lia].
Qed.

(* ================================================================= *)
(** ** Further properties: the outcomes of [Solve] *)

Lemma reconstructFrom_pos n t szs s bd bd' :
  reconstructFrom n t szs s bd = Some bd' ->
  map_Forall (fun _ v => 0 < v) bd -> map_Forall (fun _ v => 0 < v) bd'.
Proof.
  revert s bd. induction n as [|n IH]; intros s bd H Hb; simpl in H; [discriminate|].
  destruct (s <=? 0); [injection H as <-; exact Hb|]. destruct (_ =? -1); [injection H as <-; exact Hb|].
  destruct (_ <? 0); [discriminate|]. destruct (nth_error _ _) as [size|]; [|discriminate].
  apply (IH _ _ H). apply map_Forall_insert_2; [|exact Hb].
  unfold count. destruct (bd !! size) as [v|] eqn:E; simpl; [|lia].
  specialize (Hb _ _ E). simpl in Hb. lia.
Qed.

Lemma fillFrom_inl ctx szs amount maxSum :
  forall fuel p st e, fillFrom fuel ctx szs amount maxSum p st = inl e -> e = ErrCtx.
Proof.
  induction fuel as [|fuel IH]; intros p st e H; simpl in H; [discriminate|].
  destruct (maxSum <? p); [discriminate|].
  destruct (_ && _); [congruence|]. exact (IH _ _ _ H).
Qed.

Lemma validateSizesFrom_reason seen l r :
  validateSizesFrom seen l = Some r -> r <> NoValidSizes.
Proof.
  revert seen. induction l as [|x l IH]; intros seen H; simpl in H; [discriminate|].
  destruct (x <=? 0); [congruence|]. destruct (maxSize <? x); [congruence|].
  destruct (decide _); [congruence|]. exact (IH _ H).
Qed.

Lemma ValidateSolverInput_reason sizes amount r :
  ValidateSolverInput sizes amount = Some r -> r <> NoValidSizes.
Proof.
  unfold ValidateSolverInput, ValidatePackSizes, ValidateAmount.
  destruct sizes as [|x l]; [congruence|].
  destruct (validateSizesFrom ∅ (x :: l)) as [r'|] eqn:E.
  - intros [= <-]. exact (validateSizesFrom_reason _ _ _ E).
  - destruct (amount <=? 0); [congruence|]. destruct (maxAmount <? amount); congruence.
Qed.

Lemma Solve_ok_counts ctx sizes amount sol :
  Solve ctx sizes amount = Ok sol -> map_Forall (fun _ v => 0 < v) (Breakdown sol).
Proof.
  intros H.
  destruct (Solve_ok_inv _ _ _ _ H) as [_ [[_ ->]|(st & bd & _ & _ & R & ->)]]; simpl.
  - apply map_Forall_singleton. lia.
  - exact (reconstructFrom_pos _ _ _ _ _ _ R (map_Forall_empty _)).
Qed.

(** Every solution returned by [Solve] passes the package's own checks:
    [Validate] accepts it, [IsValid] holds, it records the requested
    amount, its item total is the amount plus the overage, and each entry
    of its breakdown is an input size with a positive count. *)
Theorem Solve_output_checks ctx sizes amount sol :
  Solve ctx sizes amount = Ok sol ->
  Validate (Some sol) = None /\ IsValid sol = true /\ Amount sol = amount /\
  TotalItems sol = amount + Overage sol /\
  map_Forall (fun size count => In size sizes /\ 0 < count) (Breakdown sol).
Proof.
  intros H. pose proof (Solve_ok_counts _ _ _ _ H) as Hcnt.
  destruct (Solve_ok_facts _ _ _ _ H) as (bd & -> & Hkeys & Hcov & _).
  destruct (Solve_ok_inv _ _ _ _ H) as [Hv _].
  apply ValidateSolverInput_ok in Hv as (_ & Hpos & _ & Ha).
  assert (Hf : map_Forall (fun size count => In size sizes /\ 0 < count) bd).
  { intros k v E. split; [apply Hkeys; eauto|exact (Hcnt k v E)]. }
  assert (HV : Validate (Some (NewSolution bd amount)) = None).
  { apply Validate_none_iff. unfold NewSolution; simpl.
    split; [lia|]. split; [|split; [reflexivity|split; [lia|]]].
    - intros k v E. destruct (Hf k v E) as [Hk Hv]. split; [apply Hpos; auto|lia].
    - destruct (Z.ltb_spec amount (sumItems bd)); lia. }
  split; [exact HV|]. split; [exact (Validate_implies_IsValid _ HV)|].
  split; [reflexivity|]. split; [|exact Hf].
  rewrite TotalItems_sumItems. unfold NewSolution; simpl.
  destruct (Z.ltb_spec amount (sumItems bd)); lia.
Qed.

Lemma Solve_output_checks_witness :
  Solve background [250; 500; 1000; 2000; 5000] 12001
  = Ok (NewSolution (<[250 := 1]> (<[2000 := 1]> {[5000 := 2]})) 12001) /\
  Validate (Some (NewSolution (<[250 := 1]> (<[2000 := 1]> {[5000 := 2]})) 12001))
  = None.
Proof.
  assert (E : Solve background [250; 500; 1000; 2000; 5000] 12001
              = Ok (NewSolution (<[250 := 1]> (<[2000 := 1]> {[5000 := 2]})) 12001))
    by (vm_compute; reflexivity).
  split; [exact E|exact (proj1 (Solve_output_checks _ _ _ _ E))].
Defined.

(** The errors [Solve] can return: a cancellation, a validation error
    carrying the reason [ValidateSolverInput] reports (never the
    "no valid sizes" reason), or [ErrNoSolution] on valid input; the
    reconstruction never fails. *)
Theorem Solve_errors ctx sizes amount e :
  Solve ctx sizes amount = Err e ->
  e = ErrCtx \/
  (ctx_entry ctx = false /\ exists r, ValidateSolverInput sizes amount = Some r /\
     r <> NoValidSizes /\ e = ErrInvalidInput r) \/
  (ctx_entry ctx = false /\ ValidateSolverInput sizes amount = None /\
     e = ErrNoSolution).
Proof.
  unfold Solve. destruct (ctx_entry ctx) eqn:Ec; [intros [= <-]; left; auto|].
  destruct (ValidateSolverInput sizes amount) as [r|] eqn:Ev.
  { intros [= <-]. right. left. split; [auto|]. exists r.
    split; [auto|split; [exact (ValidateSolverInput_reason _ _ _ Ev)|auto]]. }
  pose proof Ev as Hv. apply ValidateSolverInput_ok in Hv as (Hne & Hpos & _ & Ha).
  destruct sizes as [|x0 r0]; [congruence|].
  destruct (normalizeSizes_nonempty (x0 :: r0)) as (h & r & N).
  { exists x0. split; [left; auto|]. apply Hpos. left. auto. }
  rewrite N. destruct (exactPack amount (h :: r)); [discriminate|].
  destruct (fillTable ctx (h :: r) amount) as [e'|st] eqn:F.
  { intros [= <-]. left. exact (fillFrom_inl _ _ _ _ _ _ _ _ F). }
  destruct (Z.eqb_spec (bestSum st) (-1)).
  { intros [= <-]. right. right. auto. }
  rewrite <- N in F |- *.
  destruct (dp_solution ctx _ amount st (normalizeSizes_pos _) ltac:(lia) F ltac:(auto))
    as (bd & R & _). rewrite R. discriminate.
Qed.

Lemma Solve_errors_witness :
  Solve background [250; 250] 10 = Err (ErrInvalidInput (SizeDuplicate 250)) /\
  ValidateSolverInput [250; 250] 10 = Some (SizeDuplicate 250).
Proof.
  assert (E : Solve background [250; 250] 10 = Err (ErrInvalidInput (SizeDuplicate 250)))
    by (vm_compute; reflexivity).
  split; [exact E|].
  destruct (Solve_errors _ _ _ _ E) as [D|[(_ & r & Hr & _ & D)|(_ & _ & D)]];
    [discriminate D|injection D as <-; exact Hr|discriminate D].
Defined.

(** Under [context.Background()] [Solve] never reports a cancellation. *)
Theorem Solve_background_no_ctx_error sizes amount :
  Solve background sizes amount <> Err ErrCtx.
Proof.
  unfold Solve. simpl ctx_entry. cbv iota.
  destruct (ValidateSolverInput sizes amount); [discriminate|].
  destruct (normalizeSizes sizes) as [|h r]; [discriminate|].
  destruct (exactPack amount (h :: r)); [discriminate|].
  unfold fillTable.
  destruct (fillFrom_background (h :: r) amount (calculateMaxSum amount (h :: r))
              (Z.to_nat (calculateMaxSum amount (h :: r) + 1)) 0 initLoop) as [st F].
  rewrite F. destruct (bestSum st =? -1); [discriminate|].
  destruct (reconstructSolution _ _ _); discriminate.
Qed.

(** A context already canceled when the DP loop starts stops [Solve] with
    the context error, unless the amount is itself a pack size: the check
    at sum 0 comes after the exact-match exit. *)
Theorem Solve_canceled_at_start ctx sizes amount :
  ctx_entry ctx = false -> ctx_at ctx 0 = true ->
  ValidateSolverInput sizes amount = None -> ~ In amount sizes ->
  Solve ctx sizes amount = Err ErrCtx.
Proof.
  intros Ec E0 Ev Hnin. pose proof Ev as Hv.
  apply ValidateSolverInput_ok in Hv as (Hne & Hpos & _ & Ha).
  destruct sizes as [|x0 r0]; [congruence|].
  destruct (normalizeSizes_nonempty (x0 :: r0)) as (h & r & N).
  { exists x0. split; [left; auto|]. apply Hpos. left. auto. }
  unfold Solve. rewrite Ec, Ev, N.
  destruct (exactPack amount (h :: r)) as [size|] eqn:Ex.
  { exfalso. destruct (exactPack_some _ _ _ Ex) as [-> Hin]. rewrite <- N in Hin.
    apply normalizeSizes_In in Hin. tauto. }
  rewrite <- N. unfold fillTable.
  pose proof (calculateMaxSum_ge amount (normalizeSizes (x0 :: r0)) ltac:(lia)
                (normalizeSizes_pos _)) as Hm.
  destruct (Z.to_nat (calculateMaxSum amount (normalizeSizes (x0 :: r0)) + 1)) eqn:Ef;
    [lia|].
  cbn [fillFrom]. destruct (Z.ltb_spec (calculateMaxSum amount (normalizeSizes (x0 :: r0))) 0);
    [lia|]. rewrite E0. reflexivity.
Qed.

Lemma Solve_canceled_at_start_witness :
  Solve (mkCtx false (fun _ => true)) [250; 500] 600 = Err ErrCtx.
Proof.
  apply Solve_canceled_at_start; [reflexivity|reflexivity|vm_compute; reflexivity|].
  simpl. lia.
Defined.

(* ================================================================= *)
(** ** Further properties: comparing solutions *)

Ltac compare_cases :=
  repeat (simpl in *;
    match goal with
    | |- context [Z.eqb ?x ?y] => destruct (Z.eqb_spec x y)
    | |- context [Z.ltb ?x ?y] => destruct (Z.ltb_spec x y)
    end).

(** [CompareSolutions] on two solutions returns one of them, and the one
    it returns has the least [(Overage, Packs)] of the two in
    lexicographic order. *)
Theorem CompareSolutions_least a b :
  exists c, CompareSolutions (Some a) (Some b) = Some c /\ (c = a \/ c = b) /\
    lexLe (Overage c) (Packs c) (Overage a) (Packs a) /\
    lexLe (Overage c) (Packs c) (Overage b) (Packs b).
Proof.
  unfold lexLe. compare_cases; eexists; (split; [reflexivity|]);
    (split; [auto|]); lia.
Qed.

(** The order of the arguments of [CompareSolutions] only matters on a tie
    in both overage and packs, and then the second argument wins. *)
Theorem CompareSolutions_swap s1 s2 :
  CompareSolutions s1 s2 = CompareSolutions s2 s1 \/
  (exists a b, s1 = Some a /\ s2 = Some b /\ Overage a = Overage b /\
     Packs a = Packs b /\ CompareSolutions s1 s2 = s2).
Proof.
  destruct s1 as [a|], s2 as [b|]; simpl; auto.
  destruct (Z.eqb_spec (Overage a) (Overage b)); simpl.
  - destruct (Z.eqb_spec (Overage b) (Overage a)); [|lia]. simpl.
    destruct (Z.ltb_spec (Packs a) (Packs b)); destruct (Z.ltb_spec (Packs b) (Packs a));
      try lia; auto.
    right. exists a, b. repeat split; auto; lia.
  - destruct (Z.eqb_spec (Overage b) (Overage a)); [lia|]. simpl.
    destruct (Z.ltb_spec (Overage a) (Overage b)); destruct (Z.ltb_spec (Overage b) (Overage a));
      try lia; auto.
Qed.


(* ================================================================= *)
(** ** Further properties: exact solutions *)

Lemma sumZ_repeat k n : sumZ (repeat k n) = k * Z.of_nat n.
Proof. induction n as [|n IH]; simpl repeat; simpl sumZ; [lia|]. rewrite IH. lia. Qed.

Lemma breakdown_combo (bd : gmap Z Z) :
  map_Forall (fun _ v => 0 <= v) bd ->
  (forall x, In x (flat_map (fun '(k, v) => repeat k (Z.to_nat v)) (map_to_list bd)) ->
     is_Some (bd !! x)) /\
  sumZ (flat_map (fun '(k, v) => repeat k (Z.to_nat v)) (map_to_list bd)) = sumItems bd.
Proof.
  intros Hb. split.
  - intros x Hx. apply in_flat_map in Hx as ([k v] & Hin & Hr).
    apply repeat_spec in Hr as ->. exists v.
    apply elem_of_map_to_list, list_elem_of_In. exact Hin.
  - unfold sumItems. rewrite map_fold_foldr.
    apply map_Forall_to_list in Hb. induction Hb as [|[k v] l Hkv Hl IH]; simpl; [lia|].
    rewrite sumZ_app, sumZ_repeat, IH. simpl in Hkv. rewrite Z2Nat.id by lia. lia.
Qed.

(** A solution returned by [Solve] is strict (no overage) exactly when
    some multiset of the input sizes adds up to the amount. *)
Theorem Solve_strict_iff_exact ctx sizes amount sol :
  Solve ctx sizes amount = Ok sol ->
  IsSolutionStrict (Some sol) = true <->
  exists c, (forall x, In x c -> In x sizes) /\ sumZ c = amount.
Proof.
  intros H. pose proof (Solve_ok_counts _ _ _ _ H) as Hcnt.
  destruct (Solve_ok_facts _ _ _ _ H) as (bd & -> & Hkeys & Hcov & Hopt).
  simpl in Hcnt. unfold IsSolutionStrict, NewSolution; simpl. split.
  - intros Hs. apply Z.eqb_eq in Hs.
    destruct (breakdown_combo bd) as [Hin Hsum].
    { intros k v E. specialize (Hcnt k v E). simpl in Hcnt. lia. }
    eexists. split; [intros x Hx; apply Hkeys, Hin, Hx|].
    rewrite Hsum. destruct (Z.ltb_spec amount (sumItems bd)); lia.
  - intros (c & Hc & Hsum). specialize (Hopt c Hc ltac:(lia)).
    unfold lexLe in Hopt. apply Z.eqb_eq.
    destruct (Z.ltb_spec amount (sumItems bd)); lia.
Qed.

Lemma Solve_strict_iff_exact_witness :
  Solve background [3; 5] 11 = Ok (NewSolution (<[3 := 2]> {[5 := 1]}) 11) /\
  IsSolutionStrict (Some (NewSolution (<[3 := 2]> {[5 := 1]}) 11)) = true /\
  (exists c, (forall x, In x c -> In x [3; 5]) /\ sumZ c = 11).
Proof.
  assert (E : Solve background [3; 5] 11 = Ok (NewSolution (<[3 := 2]> {[5 := 1]}) 11))
    by (vm_compute; reflexivity).
  assert (S : IsSolutionStrict (Some (NewSolution (<[3 := 2]> {[5 := 1]}) 11)) = true)
    by (vm_compute; reflexivity).
  split; [exact E|split; [exact S|exact (proj1 (Solve_strict_iff_exact _ _ _ _ E) S)]].
Defined.

(* ================================================================= *)
(** ** Further properties: the cache wrapper *)





Lemma fold_delete_lookup (keys : list string) (store : Store) k :
  fold_left (fun st key => delete key st) keys store !! k
  = if in_dec string_dec k keys then None else store !! k.
Proof.
  revert store. induction keys as [|key keys IH]; intros store; [reflexivity|].
  cbn [fold_left]. rewrite IH. destruct (in_dec string_dec k keys) as [Hi|Hi];
    destruct (in_dec string_dec k (key :: keys)) as [Hj|Hj]; simpl in Hj.
  - reflexivity.
  - tauto.
  - destruct Hj as [<-|]; [apply lookup_delete_eq|tauto].
  - apply lookup_delete_ne. intros <-. tauto.
Qed.

Lemma ClearCache_keys (store : Store) k :
  In k (List.filter (fun key => String.prefix CacheKeyPrefix key)
          (map fst (map_to_list store))) <->
  String.prefix CacheKeyPrefix k = true /\ is_Some (store !! k).
Proof.
  rewrite filter_In, in_map_iff. split.
  - intros (([k' v] & Heq & Hin) & Hp). simpl in Heq. subst k'.
    split; [exact Hp|]. exists v.
    apply elem_of_map_to_list, list_elem_of_In. exact Hin.
  - intros [Hp [v Hv]]. split; [|exact Hp]. exists (k, v). split; [reflexivity|].
    apply list_elem_of_In, elem_of_map_to_list. exact Hv.
Qed.

Lemma ClearCache_lookup scanFails delFails (store : Store) k :
  let '(err, store') := ClearCache scanFails delFails store in
  (String.prefix CacheKeyPrefix k = false -> store' !! k = store !! k) /\
  (err = None -> String.prefix CacheKeyPrefix k = true -> store' !! k = None) /\
  (err <> None -> store' = store).
Proof.
  unfold ClearCache.
  pose proof (ClearCache_keys store k) as Hk.
  destruct scanFails; [split; [auto|split; [discriminate|auto]]|].
  destruct (List.filter _ _) as [|key keys] eqn:F.
  - split; [auto|split; [|congruence]]. intros _ Hp.
    destruct (store !! k) eqn:E; [|reflexivity]. exfalso. apply (proj2 Hk). eauto.
  - destruct delFails; [split; [auto|split; [discriminate|auto]]|].
    rewrite fold_delete_lookup. rewrite <- F in Hk |- *.
    split; [|split; [|congruence]].
    + intros Hp. destruct (in_dec _ _ _) as [Hi|]; [|reflexivity].
      apply Hk in Hi as [Hi _]. congruence.
    + intros _ Hp. destruct (in_dec _ _ _) as [|Hi]; [reflexivity|].
      destruct (store !! k) eqn:E; [|reflexivity]. exfalso. apply Hi, Hk. eauto.
Qed.


Lemma prefix_append (s t : string) : String.prefix s (String.append s t) = true.
Proof.
  induction s as [|a s IH]; simpl; [destruct t; reflexivity|].
  destruct (ascii_dec a a); [exact IH|congruence].
Qed.

Lemma generateCacheKey_prefix sizes amount :
  String.prefix CacheKeyPrefix (generateCacheKey sizes amount) = true.
Proof. apply prefix_append. Qed.

(** After a successful [ClearCache], every solver request misses the
    cache. *)
Theorem ClearCache_then_miss store store' sizes amount :
  ClearCache false false store = (None, store') ->
  getFromStore store' (generateCacheKey sizes amount) = CacheMiss.
Proof.
  intros E. pose proof (ClearCache_lookup false false store (generateCacheKey sizes amount)) as L.
  rewrite E in L. unfold getFromStore.
  rewrite (proj1 (proj2 L) eq_refl (generateCacheKey_prefix sizes amount)). reflexivity.
Qed.

Lemma ClearCache_then_miss_witness :
  ClearCache false false {[generateCacheKey [250] 10 := EmptySolution 10]} = (None, ∅) /\
  getFromStore ∅ (generateCacheKey [250] 10) = CacheMiss.
Proof.
  assert (E : ClearCache false false {[generateCacheKey [250] 10 := EmptySolution 10]}
              = (None, ∅)) by (vm_compute; reflexivity).
  split; [exact E|exact (ClearCache_then_miss _ _ [250] 10 E)].
Defined.

(* ================================================================= *)
(** ** Further properties: normalization and validation of sizes *)

Lemma normalizeSizes_NoDup l : NoDup (normalizeSizes l).
Proof.
  unfold normalizeSizes. destruct l; [constructor|].
  apply (NoDup_Permutation_proper _ _ (merge_sort_Permutation Z.le _)).
  apply NoDup_elements.
Qed.

Lemma sorted_nodup_strict (l : list Z) :
  Sorted Z.le l -> NoDup l -> StronglySorted Z.lt l.
Proof.
  intros Hs Hn. apply Sorted_StronglySorted in Hs; [|intros ? ? ?; lia].
  induction Hs as [|x l Hs IH Hall]; constructor.
  - apply IH. inversion Hn; auto.
  - inversion Hn as [|? ? Hx _]; subst. rewrite Forall_forall in Hall |- *.
    intros y Hy. specialize (Hall y Hy). assert (x <> y); [|lia].
    intros ->. exact (Hx Hy).
Qed.

Lemma normalizeSizes_idem l : normalizeSizes (normalizeSizes l) = normalizeSizes l.
Proof.
  destruct (normalizeSizes l) as [|h r] eqn:E; [reflexivity|]. rewrite <- E.
  apply (Sorted_unique Z.le).
  - apply normalizeSizes_sorted.
  - apply normalizeSizes_sorted.
  - apply NoDup_Permutation; [apply normalizeSizes_NoDup..|].
    intros x. rewrite !list_elem_of_In, normalizeSizes_In.
    split; [tauto|]. intros Hx. split; [exact Hx|exact (normalizeSizes_pos _ _ Hx)].
Qed.

(** [normalizeSizes] returns the positive input sizes, each once, in
    strictly increasing order, and normalizing its result again changes
    nothing. *)
Theorem normalizeSizes_shape l :
  StronglySorted Z.lt (normalizeSizes l) /\
  (forall x, In x (normalizeSizes l) <-> In x l /\ 0 < x) /\
  normalizeSizes (normalizeSizes l) = normalizeSizes l.
Proof.
  split; [|split].
  - apply sorted_nodup_strict; [apply normalizeSizes_sorted|apply normalizeSizes_NoDup].
  - apply normalizeSizes_In.
  - apply normalizeSizes_idem.
Qed.

Lemma validateSizesFrom_first seen l r :
  validateSizesFrom seen l = Some r ->
  exists p z q, l = p ++ z :: q /\
    (forall x, In x p -> 0 < x <= maxSize) /\ NoDup p /\
    (forall x, In x p -> x ∉ seen) /\
    ((z <= 0 /\ r = SizeNonPositive z) \/
     (0 < z /\ maxSize < z /\ r = SizeTooLarge z) \/
     (0 < z <= maxSize /\ (In z p \/ z ∈ seen) /\ r = SizeDuplicate z)).
Proof.
  revert seen. induction l as [|y l IH]; intros seen H; simpl in H; [discriminate|].
  destruct (Z.leb_spec y 0).
  { injection H as <-. exists [], y, l. split; [reflexivity|].
    split; [intros ? []|]. split; [constructor|]. split; [intros ? []|].
    left. auto. }
  destruct (Z.ltb_spec maxSize y).
  { injection H as <-. exists [], y, l. split; [reflexivity|].
    split; [intros ? []|]. split; [constructor|]. split; [intros ? []|].
    right; left. auto. }
  case_decide as Hs.
  { injection H as <-. exists [], y, l. split; [reflexivity|].
    split; [intros ? []|]. split; [constructor|]. split; [intros ? []|].
    right; right. split; [lia|]. split; [right; exact Hs|reflexivity]. }
  destruct (IH _ H) as (p & z & q & -> & Hb & Hn & Hseen & Hr).
  exists (y :: p), z, q. split; [reflexivity|]. split; [|split; [|split]].
  - intros x [<-|Hx]; [lia|auto].
  - constructor; [|exact Hn]. intros Hin. apply list_elem_of_In in Hin.
    apply (Hseen y Hin). set_solver.
  - intros x [<-|Hx]; [exact Hs|]. specialize (Hseen x Hx). set_solver.
  - destruct Hr as [Hr|[Hr|(Hz & Hin & Hr)]]; [left; exact Hr|right; left; exact Hr|].
    right; right. split; [exact Hz|split; [|exact Hr]].
    destruct Hin as [Hin|Hin]; [left; right; exact Hin|].
    apply elem_of_union in Hin as [Hin|Hin]; [|right; exact Hin].
    apply elem_of_singleton in Hin as ->. left; left; reflexivity.
Qed.

(** A rejection by [ValidatePackSizes] names the first offending entry:
    either the list is empty, or every entry before it is in range and
    distinct, and the entry itself is not positive, too large, or a repeat
    of an earlier one, checked in that order. *)
Theorem ValidatePackSizes_first_offender sizes r :
  ValidatePackSizes sizes = Some r ->
  (sizes = [] /\ r = SizesEmpty) \/
  exists p z q, sizes = p ++ z :: q /\
    (forall x, In x p -> 0 < x <= maxSize) /\ NoDup p /\
    ((z <= 0 /\ r = SizeNonPositive z) \/
     (0 < z /\ maxSize < z /\ r = SizeTooLarge z) \/
     (0 < z <= maxSize /\ In z p /\ r = SizeDuplicate z)).
Proof.
  unfold ValidatePackSizes. destruct sizes as [|y l].
  { intros [= <-]. left. auto. }
  intros H. right.
  destruct (validateSizesFrom_first _ _ _ H) as (p & z & q & E & Hb & Hn & _ & Hr).
  exists p, z, q. split; [exact E|split; [exact Hb|split; [exact Hn|]]].
  destruct Hr as [Hr|[Hr|(Hz & [Hin|Hin] & Hr)]]; auto.
  apply not_elem_of_empty in Hin. contradiction.
Qed.

Lemma ValidatePackSizes_first_offender_witness :
  ValidatePackSizes [250; 500; 250; 0] = Some (SizeDuplicate 250) /\
  exists p z q, [250; 500; 250; 0] = p ++ z :: q /\ In z p.
Proof.
  assert (E : ValidatePackSizes [250; 500; 250; 0] = Some (SizeDuplicate 250))
    by (vm_compute; reflexivity).
  split; [exact E|].
  destruct (ValidatePackSizes_first_offender _ _ E)
    as [[? _]|(p & z & q & Hs & _ & _ & Hr)]; [discriminate|].
  exists p, z, q. split; [exact Hs|].
  destruct Hr as [(_ & D)|[(_ & _ & D)|(_ & Hin & _)]]; [discriminate D|discriminate D|exact Hin].
Defined.

(* ================================================================= *)
(** ** Further properties: the amount inside a cache key *)

Lemma sha_round_length st kw : length (sha_round st kw) = length st.
Proof.
  unfold sha_round.
  destruct st as [|a [|b [|c [|d [|e [|f [|g [|h [|i r]]]]]]]]]; reflexivity.
Qed.

Lemma sha_block_length hs block : length (sha_block hs block) = length hs.
Proof.
  unfold sha_block. rewrite length_zip_with.
  assert (G : forall l st, length (fold_left sha_round l st) = length st).
  { induction l as [|kw l IH]; intros st; simpl; [reflexivity|].
    rewrite IH. apply sha_round_length. }
  rewrite G. lia.
Qed.

Lemma sha_blocks_length fuel hs words : length (sha_blocks fuel hs words) = length hs.
Proof.
  revert hs words. induction fuel as [|f IH]; intros hs words; simpl; [reflexivity|].
  destruct words; [reflexivity|]. rewrite IH. apply sha_block_length.
Qed.

Lemma be_bytes_length n x : length (be_bytes n x) = n.
Proof. unfold be_bytes. rewrite length_map. apply length_seq. Qed.

Lemma sha256_length msg : length (sha256 msg) = 32%nat.
Proof.
  unfold sha256.
  assert (G : forall l, length (flat_map (be_bytes 4) l) = (4 * length l)%nat).
  { induction l as [|x l IH]; [reflexivity|]. cbn [flat_map].
    rewrite length_app, be_bytes_length, IH. cbn [length]. lia. }
  rewrite G, sha_blocks_length. reflexivity.
Qed.

Lemma hexEncode_length bytes : String.length (hexEncode bytes) = (2 * length bytes)%nat.
Proof.
  unfold hexEncode.
  assert (G : forall l, String.length (string_of_list_ascii l) = length l).
  { induction l as [|c l IH]; simpl; [reflexivity|]. rewrite IH. reflexivity. }
  rewrite G. induction bytes as [|b bytes IH]; simpl; [reflexivity|].
  rewrite IH. lia.
Qed.

Lemma append_cancel (x x' y y' : string) :
  String.length x = String.length x' ->
  String.append x y = String.append x' y' -> x = x' /\ y = y'.
Proof.
  revert x'. induction x as [|c x IH]; intros x' Hl E.
  - destruct x'; [split; [reflexivity|exact E]|discriminate].
  - destruct x' as [|c' x']; [discriminate|]. simpl in Hl, E.
    injection E as -> E. destruct (IH x' ltac:(lia) E) as [-> ->]. auto.
Qed.

Lemma decimalDigits_read f n acc v :
  0 <= n < 10 ^ Z.of_nat f ->
  exists k, 0 <= k /\
    readDigits v (decimalDigits f n acc) = readDigits (v * 10 ^ k + n) acc.
Proof.
  revert n acc v. induction f as [|f IH]; intros n acc v Hn.
  - simpl in Hn. exists 0. split; [lia|]. simpl. f_equal. lia.
  - assert (Hd : nat_of_ascii (ascii_of_nat (48 + Z.to_nat (n mod 10)))
                 = (48 + Z.to_nat (n mod 10))%nat).
    { apply nat_ascii_embedding. pose proof (Z.mod_pos_bound n 10). lia. }
    assert (Hm : Z.of_nat (nat_of_ascii (ascii_of_nat (48 + Z.to_nat (n mod 10)))) - 48
                 = n mod 10).
    { rewrite Hd, Nat2Z.inj_add, Z2Nat.id; [lia|]. pose proof (Z.mod_pos_bound n 10). lia. }
    cbn [decimalDigits]. destruct (Z.ltb_spec n 10).
    + exists 1. split; [lia|]. cbn [readDigits]. rewrite Hm. f_equal.
      rewrite Z.mod_small by lia. lia.
    + rewrite Nat2Z.inj_succ, Z.pow_succ_r in Hn by lia.
      destruct (IH (n / 10) (String (ascii_of_nat (48 + Z.to_nat (n mod 10))) acc) v)
        as (k & Hk0 & Hk).
      { split; [apply Z.div_pos; lia|]. apply Z.div_lt_upper_bound; lia. }
      rewrite Hk. cbn [readDigits]. rewrite Hm.
      exists (Z.succ k). split; [lia|].
      rewrite Z.pow_succ_r by exact Hk0. f_equal.
      pose proof (Z.div_mod n 10). lia.
Qed.

Lemma decimalDigits_head f n acc c r :
  (forall c' r', acc = String c' r' -> c' <> "-"%char) ->
  decimalDigits f n acc = String c r -> c <> "-"%char.
Proof.
  revert n acc. induction f as [|f IH]; intros n acc Hacc E; [exact (Hacc c r E)|].
  assert (Hd : forall c' r', String (ascii_of_nat (48 + Z.to_nat (n mod 10))) acc
                             = String c' r' -> c' <> "-"%char).
  { intros c' r' [= <- _] Hc. apply (f_equal nat_of_ascii) in Hc.
    rewrite nat_ascii_embedding in Hc; [change (nat_of_ascii "-") with 45%nat in Hc; lia|].
    pose proof (Z.mod_pos_bound n 10). lia. }
  cbn [decimalDigits] in E. destruct (n <? 10); [exact (Hd c r E)|exact (IH _ _ Hd E)].
Qed.

Lemma formatInt_digits n : 0 <= n < 10 ^ 64 ->
  readDigits 0 (decimalDigits 64 n EmptyString) = n.
Proof.
  intros Hn. destruct (decimalDigits_read 64 n EmptyString 0 Hn) as (k & _ & ->).
  simpl. lia.
Qed.

Lemma formatInt_inj a a' :
  - 10 ^ 64 < a < 10 ^ 64 -> - 10 ^ 64 < a' < 10 ^ 64 ->
  formatInt a = formatInt a' -> a = a'.
Proof.
  intros Ha Ha'. unfold formatInt.
  destruct (Z.ltb_spec a 0), (Z.ltb_spec a' 0); intros E.
  - apply (f_equal (fun s => match s with String _ r => r | EmptyString => s end)) in E.
    cbv beta iota in E. apply (f_equal (readDigits 0)) in E.
    rewrite !formatInt_digits in E by lia. lia.
  - exfalso. symmetry in E. refine (decimalDigits_head _ _ _ _ _ _ E eq_refl). intros ? ? D. discriminate D.
  - exfalso. refine (decimalDigits_head _ _ _ _ _ _ E eq_refl). intros ? ? D. discriminate D.
  - apply (f_equal (readDigits 0)) in E. rewrite !formatInt_digits in E by lia. exact E.
Qed.

(** Two requests whose amounts differ never share a cache key, whatever
    their sizes: the key ends in the decimal form of the amount, after a
    digest of fixed length. *)
Theorem generateCacheKey_amount_inj sizes sizes' a a' :
  - 2 ^ 63 <= a < 2 ^ 63 -> - 2 ^ 63 <= a' < 2 ^ 63 ->
  generateCacheKey sizes a = generateCacheKey sizes' a' -> a = a'.
Proof.
  intros Ha Ha' E. unfold generateCacheKey, cacheKeyOf in E.
  apply append_cancel in E as [_ E]; [|reflexivity].
  apply append_cancel in E as [_ E]; [|rewrite !hexEncode_length, !sha256_length; reflexivity].
  apply append_cancel in E as [_ E]; [|reflexivity].
  apply formatInt_inj in E; [exact E|lia|lia].
Qed.

Lemma generateCacheKey_amount_inj_witness :
  generateCacheKey [250; 500] 250 <> generateCacheKey [250; 500] 251.
Proof.
  intros E. pose proof (generateCacheKey_amount_inj [250; 500] [250; 500] 250 251
                          ltac:(lia) ltac:(lia) E). lia.
Defined.
